(** * Conjugate Gradient solver of amgcl (amgcl/solver/cg.hpp)

    A shallow embedding of the class template [amgcl::solver::cg<Backend>]:
    its parameters, its constructor, the four-argument and the three-argument
    [operator()], over an arbitrary [value_type] and an arbitrary backend.

    The embedding is instantiated twice: with IEEE binary64 numbers (the
    [double] of [amgcl::backend::builtin<double>], executable), and with the
    real numbers (exact arithmetic). *)

From Stdlib Require Import List Bool Arith Lia ZArith.
From Stdlib Require Import Floats.PrimFloat Floats.SpecFloat Floats.FloatOps.
From Stdlib Require Import Reals Lra.
From Stdlib Require Strings.String Strings.Ascii Strings.Byte.
From Stdlib Require Numbers.DecimalString Numbers.DecimalNat.
Import ListNotations.

Set Implicit Arguments.
Set Warnings "-inexact-float".

(** ** The value type

    [cg] is generic in [Backend::value_type].  The solver uses the literals
    [0] and [1], division, unary minus, the comparisons [== 0] and [>], and
    the conversion of the [double] literal [1e-8]; the backend primitives add,
    subtract, multiply and take square roots.  [sleb] is the order [<=] in
    which the documentation words the stopping test; the code never calls
    it. *)
Class Scalar (V : Type) : Type := {
  szero : V;
  sone : V;
  sadd : V -> V -> V;
  ssub : V -> V -> V;
  smul : V -> V -> V;
  sdiv : V -> V -> V;
  sopp : V -> V;
  ssqrt : V -> V;
  seqb : V -> V -> bool;
  sgtb : V -> V -> bool;
  sleb : V -> V -> bool;
  of_double : float -> V
}.

(** ** What the backend leaves open

    amgcl/backend/interface.hpp is not part of the sources at hand, and the
    documentation does not fix how matrices are stored or how vectors are
    allocated: these are parameters.  Vectors are value arrays. *)
Class Backend (V : Type) : Type := {
  matrix : Type;
  backend_params : Type;
  backend_params_default : backend_params;
  create_vector : nat -> backend_params -> list V;
  mv : matrix -> list V -> list V
}.

Fixpoint map2 {X Y Z : Type} (f : X -> Y -> Z) (xs : list X) (ys : list Y) : list Z :=
  match xs, ys with
  | a :: xs', b :: ys' => f a b :: map2 f xs' ys'
  | _, _ => []
  end.

Section Solver.

Context {V : Type} {SV : Scalar V} {BV : Backend V}.

Definition vector : Type := list V.

(** *** Vector arithmetic in the notation of the documentation *)

Definition vadd (u v : vector) : vector := map2 sadd u v.
Definition vsub (u v : vector) : vector := map2 ssub u v.
Definition vscale (a : V) (v : vector) : vector := map (smul a) v.
Definition dot (u v : vector) : V := fold_left sadd (map2 smul u v) szero.

(** *** The backend primitives *)

(** Modelled from the spec: amgcl/backend/interface.hpp is missing;
    [inner_product(u, v)] is the scalar product, accumulated from [0] in
    index order. *)
Definition inner_product (u v : vector) : V := dot u v.

(** Modelled from the spec: amgcl/backend/interface.hpp is missing;
    [norm(v)] is the Euclidean norm. *)
Definition norm (v : vector) : V := ssqrt (inner_product v v).

(** Modelled from the spec: amgcl/backend/interface.hpp is missing;
    [residual(rhs, A, x, out)] computes [out := rhs - A x]. *)
Definition residual (rhs : vector) (A : matrix) (x : vector) : vector :=
  map2 ssub rhs (mv A x).

(** Modelled from the spec: amgcl/backend/interface.hpp is missing;
    [axpby(alpha, x, beta, y)] computes [y := alpha x + beta y] in place. *)
Definition axpby (alpha : V) (x : vector) (beta : V) (y : vector) : vector :=
  map2 (fun xi yi => sadd (smul alpha xi) (smul beta yi)) x y.

(** Modelled from the spec: amgcl/backend/interface.hpp is missing;
    [spmv(alpha, A, x, beta, y)] computes [y := alpha A x + beta y]. *)
Definition spmv (alpha : V) (A : matrix) (x : vector) (beta : V) (y : vector) : vector :=
  map2 (fun ti yi => sadd (smul alpha ti) (smul beta yi)) (mv A x) y.

(** Modelled from the spec: amgcl/backend/interface.hpp is missing;
    [copy(src, dst)] overwrites [dst] with [src]. *)
Definition copy (src dst : vector) : vector := src.

(** Modelled from the spec: amgcl/backend/interface.hpp is missing;
    [clear(v)] fills [v] with zeros. *)
Definition clear (v : vector) : vector := map (fun _ => szero) v.

(** *** Preconditioners

    A preconditioner is anything callable as [P(input, output)]; an AMG
    preconditioner also hands out the matrix it was built from. *)
Record precond : Type := { apply : vector -> vector }.

Record amg_precond : Type := {
  as_precond :> precond;
  top_matrix : matrix
}.

(** *** [cg::params] *)
Record params : Type := { maxiter : nat; tol : V }.

(** [params(size_t maxiter = 100, value_type tol = 1e-8)]: an omitted
    argument is [None]. *)
Definition params_ctor (m : option nat) (t : option V) : params :=
  {| maxiter := match m with Some m' => m' | None => 100 end;
     tol := match t with Some t' => t' | None => of_double 1e-8%float end |}.

(** *** The engine object: parameters, size and the four scratch vectors *)
Record cg : Type := {
  cg_prm : params;
  cg_n : nat;
  cg_r : vector;
  cg_s : vector;
  cg_p : vector;
  cg_q : vector
}.

(** The constructor
    [cg(n, prm = params(), backend_prm = backend_params())]. *)
Definition cg_ctor (n : nat) (prm : option params) (backend_prm : option backend_params) : cg :=
  let prm' := match prm with Some x => x | None => params_ctor None None end in
  let bp := match backend_prm with Some b => b | None => backend_params_default end in
  {| cg_prm := prm'; cg_n := n;
     cg_r := create_vector n bp; cg_s := create_vector n bp;
     cg_p := create_vector n bp; cg_q := create_vector n bp |}.

(** *** The memory a call works on

    The arguments [A], [P], [rhs], [x], the members of the engine and the
    locals of [operator()] that live across loop iterations.  [f_rhs] and
    [f_x] are the values the call works on; the caller's objects, which
    [rhs] and [x] may share, are in [call4]. *)
Record frame : Type := {
  f_A : matrix;
  f_P : precond;
  f_rhs : vector;
  f_x : vector;
  f_prm : params;
  f_n : nat;
  f_r : vector;
  f_s : vector;
  f_p : vector;
  f_q : vector;
  f_rho1 : V;
  f_rho2 : V;
  f_norm_of_rhs : V;
  f_iter : nat
}.

Definition set_x (v : vector) (f : frame) : frame :=
  {| f_A := f_A f; f_P := f_P f; f_rhs := f_rhs f; f_x := v; f_prm := f_prm f;
     f_n := f_n f; f_r := f_r f; f_s := f_s f; f_p := f_p f; f_q := f_q f;
     f_rho1 := f_rho1 f; f_rho2 := f_rho2 f;
     f_norm_of_rhs := f_norm_of_rhs f; f_iter := f_iter f |}.

Definition set_r (v : vector) (f : frame) : frame :=
  {| f_A := f_A f; f_P := f_P f; f_rhs := f_rhs f; f_x := f_x f; f_prm := f_prm f;
     f_n := f_n f; f_r := v; f_s := f_s f; f_p := f_p f; f_q := f_q f;
     f_rho1 := f_rho1 f; f_rho2 := f_rho2 f;
     f_norm_of_rhs := f_norm_of_rhs f; f_iter := f_iter f |}.

Definition set_s (v : vector) (f : frame) : frame :=
  {| f_A := f_A f; f_P := f_P f; f_rhs := f_rhs f; f_x := f_x f; f_prm := f_prm f;
     f_n := f_n f; f_r := f_r f; f_s := v; f_p := f_p f; f_q := f_q f;
     f_rho1 := f_rho1 f; f_rho2 := f_rho2 f;
     f_norm_of_rhs := f_norm_of_rhs f; f_iter := f_iter f |}.

Definition set_p (v : vector) (f : frame) : frame :=
  {| f_A := f_A f; f_P := f_P f; f_rhs := f_rhs f; f_x := f_x f; f_prm := f_prm f;
     f_n := f_n f; f_r := f_r f; f_s := f_s f; f_p := v; f_q := f_q f;
     f_rho1 := f_rho1 f; f_rho2 := f_rho2 f;
     f_norm_of_rhs := f_norm_of_rhs f; f_iter := f_iter f |}.

Definition set_q (v : vector) (f : frame) : frame :=
  {| f_A := f_A f; f_P := f_P f; f_rhs := f_rhs f; f_x := f_x f; f_prm := f_prm f;
     f_n := f_n f; f_r := f_r f; f_s := f_s f; f_p := f_p f; f_q := v;
     f_rho1 := f_rho1 f; f_rho2 := f_rho2 f;
     f_norm_of_rhs := f_norm_of_rhs f; f_iter := f_iter f |}.

Definition set_rho1 (a : V) (f : frame) : frame :=
  {| f_A := f_A f; f_P := f_P f; f_rhs := f_rhs f; f_x := f_x f; f_prm := f_prm f;
     f_n := f_n f; f_r := f_r f; f_s := f_s f; f_p := f_p f; f_q := f_q f;
     f_rho1 := a; f_rho2 := f_rho2 f;
     f_norm_of_rhs := f_norm_of_rhs f; f_iter := f_iter f |}.

Definition set_rho2 (a : V) (f : frame) : frame :=
  {| f_A := f_A f; f_P := f_P f; f_rhs := f_rhs f; f_x := f_x f; f_prm := f_prm f;
     f_n := f_n f; f_r := f_r f; f_s := f_s f; f_p := f_p f; f_q := f_q f;
     f_rho1 := f_rho1 f; f_rho2 := a;
     f_norm_of_rhs := f_norm_of_rhs f; f_iter := f_iter f |}.

Definition set_iter (k : nat) (f : frame) : frame :=
  {| f_A := f_A f; f_P := f_P f; f_rhs := f_rhs f; f_x := f_x f; f_prm := f_prm f;
     f_n := f_n f; f_r := f_r f; f_s := f_s f; f_p := f_p f; f_q := f_q f;
     f_rho1 := f_rho1 f; f_rho2 := f_rho2 f;
     f_norm_of_rhs := f_norm_of_rhs f; f_iter := k |}.

(** *** The four-argument [operator()] *)

(** Lines 119-122 and 129: the arguments and members are bound,
    [residual(rhs, A, x, *r)] has overwritten [r], [rho1 = rho2 = 0],
    [norm_of_rhs = norm(rhs)], [iter = 0]. *)
Definition enter (e : cg) (A : matrix) (P : precond) (rhs x : vector) : frame :=
  {| f_A := A; f_P := P; f_rhs := rhs; f_x := x;
     f_prm := cg_prm e; f_n := cg_n e;
     f_r := residual rhs A x;
     f_s := cg_s e; f_p := cg_p e; f_q := cg_q e;
     f_rho1 := szero; f_rho2 := szero;
     f_norm_of_rhs := norm rhs;
     f_iter := 0 |}.

(** Line 134: [P( *r, *s)]. *)
Definition st_precond (f : frame) : frame :=
  set_s (apply (f_P f) (f_r f)) f.

(** Lines 136-137: [rho2 = rho1; rho1 = inner_product( *r, *s)]. *)
Definition st_rho (f : frame) : frame :=
  let f := set_rho2 (f_rho1 f) f in
  set_rho1 (inner_product (f_r f) (f_s f)) f.

(** Lines 139-142: the search direction. *)
Definition st_dir (f : frame) : frame :=
  if negb (f_iter f =? 0)
  then set_p (axpby sone (f_s f) (sdiv (f_rho1 f) (f_rho2 f)) (f_p f)) f
  else set_p (copy (f_s f) (f_p f)) f.

(** Line 144: [spmv(1, A, *p, 0, *q)]. *)
Definition st_spmv (f : frame) : frame :=
  set_q (spmv sone (f_A f) (f_p f) szero (f_q f)) f.

(** Line 146: [alpha = rho1 / inner_product( *q, *p)]. *)
Definition alpha_of (f : frame) : V :=
  sdiv (f_rho1 f) (inner_product (f_q f) (f_p f)).

(** Lines 146-149: [alpha], then the updates of [x] and [r]. *)
Definition st_update (f : frame) : frame :=
  let alpha := alpha_of f in
  let f := set_x (axpby alpha (f_p f) sone (f_x f)) f in
  set_r (axpby (sopp alpha) (f_q f) sone (f_r f)) f.

(** Lines 134-149: the body of the [for] loop. *)
Definition body (f : frame) : frame :=
  st_update (st_spmv (st_dir (st_rho (st_precond f)))).

(** [++iter] *)
Definition incr (f : frame) : frame := set_iter (S (f_iter f)) f.

(** One trip round the loop: the body, then the increment. *)
Definition next (f : frame) : frame := incr (body f).

(** [res = backend::norm( *r) / norm_of_rhs], as assigned by the loop test. *)
Definition rel_res (f : frame) : V := sdiv (norm (f_r f)) (f_norm_of_rhs f).

(** [res > prm.tol && iter < prm.maxiter] *)
Definition continues (f : frame) : bool :=
  sgtb (rel_res f) (tol (f_prm f)) && (f_iter f <? maxiter (f_prm f)).

(** Line 132: the loop.  It returns the memory at exit together with [res].
    [k] bounds the number of trips; [maxiter - iter] trips are never
    exceeded (see [loop_exits]), so the bound is not felt. *)
Fixpoint loop (k : nat) (f : frame) : frame * V :=
  if continues f then
    match k with
    | S k' => loop k' (next f)
    | O => (f, rel_res f)
    end
  else (f, rel_res f).

(** Lines 119-152.  The result is the memory after the call and the returned
    tuple [(iterations, residual)]. *)
Definition run (e : cg) (A : matrix) (P : precond) (rhs x : vector) : frame * (nat * V) :=
  let f := enter e A P rhs x in
  if seqb (f_norm_of_rhs f) szero then
    let f := set_x (clear (f_x f)) f in
    (f, (0, f_norm_of_rhs f))
  else
    let '(f', res) := loop (maxiter (f_prm f)) f in
    (f', (f_iter f', res)).

(** The engine as the call leaves it. *)
Definition leave (f : frame) : cg :=
  {| cg_prm := f_prm f; cg_n := f_n f;
     cg_r := f_r f; cg_s := f_s f; cg_p := f_p f; cg_q := f_q f |}.

(** What the caller sees of a call: the engine, the solution vector and the
    returned tuple. *)
Record outcome : Type := {
  out_engine : cg;
  out_x : vector;
  out_result : nat * V
}.

Definition outcome_of (fr : frame * (nat * V)) : outcome :=
  {| out_engine := leave (fst fr); out_x := f_x (fst fr); out_result := snd fr |}.

Definition solve4 (e : cg) (A : matrix) (P : precond) (rhs x : vector) : outcome :=
  outcome_of (run e A P rhs x).

(** *** The three-argument [operator()], lines 161-169 *)
Definition run3 (e : cg) (P : amg_precond) (rhs x : vector) : frame * (nat * V) :=
  run e (top_matrix P) P rhs x.

Definition solve3 (e : cg) (P : amg_precond) (rhs x : vector) : outcome :=
  outcome_of (run3 e P rhs x).

(** *** Auxiliary notions for the statements below *)

(** The memory after [j] trips round the loop, whatever the loop test says. *)
Fixpoint trips (j : nat) (f : frame) : frame :=
  match j with
  | O => f
  | S j' => trips j' (next f)
  end.

(** The number of trips the loop makes. *)
Fixpoint trip_count (k : nat) (f : frame) : nat :=
  if continues f then
    match k with
    | S k' => S (trip_count k' (next f))
    | O => 0
    end
  else 0.

(** The engine [e] had it been constructed with another iteration limit. *)
Definition with_maxiter (m : nat) (e : cg) : cg :=
  {| cg_prm := {| maxiter := m; tol := tol (cg_prm e) |}; cg_n := cg_n e;
     cg_r := cg_r e; cg_s := cg_s e; cg_p := cg_p e; cg_q := cg_q e |}.

Definition set_prm (prm : params) (f : frame) : frame :=
  {| f_A := f_A f; f_P := f_P f; f_rhs := f_rhs f; f_x := f_x f; f_prm := prm;
     f_n := f_n f; f_r := f_r f; f_s := f_s f; f_p := f_p f; f_q := f_q f;
     f_rho1 := f_rho1 f; f_rho2 := f_rho2 f;
     f_norm_of_rhs := f_norm_of_rhs f; f_iter := f_iter f |}.

(** One step of the preconditioned conjugate gradient method, in the words of
    the documentation: [s := P.apply(r)]; [rho2 := rho1]; [rho1 := <r,s>];
    [p := s] on the first iteration and [p := s + (rho1/rho2) p] afterwards;
    [q := A p]; [alpha := rho1 / <q,p>]; [x := x + alpha p];
    [r := r - alpha q]; then [iter] is incremented. *)
Definition pcg_step (f : frame) : frame :=
  let s := apply (f_P f) (f_r f) in
  let rho2 := f_rho1 f in
  let rho1 := dot (f_r f) s in
  let p := if f_iter f =? 0 then s
           else vadd s (vscale (sdiv rho1 rho2) (f_p f)) in
  let q := mv (f_A f) p in
  let alpha := sdiv rho1 (dot q p) in
  let x := vadd (f_x f) (vscale alpha p) in
  let r := vsub (f_r f) (vscale alpha q) in
  {| f_A := f_A f; f_P := f_P f; f_rhs := f_rhs f; f_x := x; f_prm := f_prm f;
     f_n := f_n f; f_r := r; f_s := s; f_p := p; f_q := q;
     f_rho1 := rho1; f_rho2 := rho2;
     f_norm_of_rhs := f_norm_of_rhs f; f_iter := S (f_iter f) |}.

Fixpoint pcg_steps (j : nat) (f : frame) : frame :=
  match j with
  | O => f
  | S j' => pcg_steps j' (pcg_step f)
  end.

(** The identities of exact arithmetic under which the backend calls of the
    loop body read as the formulas of the documentation. *)
Record exact_arithmetic : Prop := {
  mul_one_l : forall a : V, smul sone a = a;
  add_comm : forall a b : V, sadd a b = sadd b a;
  add_mul_zero : forall a b : V, sadd a (smul szero b) = a;
  opp_mul_add : forall a b c : V, sadd (smul (sopp a) b) c = ssub c (smul a b)
}.

(** The value type is totally ordered: [<=] is the negation of [>]. *)
Definition total_order : Prop :=
  forall a b : V, sleb a b = negb (sgtb a b).

(** A system of dimension [n]: [A] and [P] map vectors of size [n] to vectors
    of size [n]. *)
Definition square (n : nat) (A : matrix) : Prop :=
  forall v : vector, length v = n -> length (mv A v) = n.

Definition preserves_size (n : nat) (P : precond) : Prop :=
  forall v : vector, length v = n -> length (apply P v) = n.

(** [A] is a linear map on vectors of size [n]. *)
Definition linear (n : nat) (A : matrix) : Prop :=
  forall (a : V) (u v : vector), length u = n -> length v = n ->
    mv A (vadd u (vscale a v)) = vadd (mv A u) (vscale a (mv A v)).

(** Subtracting a sum is subtracting its terms in turn. *)
Definition sub_add_law : Prop :=
  forall b c d : V, ssub b (sadd c d) = ssub (ssub b c) d.

(** All vectors in memory have size [n] and so have the operators. *)
Record sized (n : nat) (f : frame) : Prop := {
  sized_A : square n (f_A f);
  sized_P : preserves_size n (f_P f);
  sized_x : length (f_x f) = n;
  sized_r : length (f_r f) = n;
  sized_s : length (f_s f) = n;
  sized_p : length (f_p f) = n;
  sized_q : length (f_q f) = n
}.

(** The scratch vectors of the engine have the size it was built for. *)
Record cg_sized (e : cg) : Prop := {
  cg_sized_r : length (cg_r e) = cg_n e;
  cg_sized_s : length (cg_s e) = cg_n e;
  cg_sized_p : length (cg_p e) = cg_n e;
  cg_sized_q : length (cg_q e) = cg_n e
}.

(** The engine [e] with other content in the scratch vectors [r], [s] and
    [p], as an earlier call may have left them. *)
Definition with_scratch (r s p : vector) (e : cg) : cg :=
  {| cg_prm := cg_prm e; cg_n := cg_n e;
     cg_r := r; cg_s := s; cg_p := p; cg_q := cg_q e |}.

(** The engine [e] had it been constructed with another tolerance. *)
Definition with_tol (t : V) (e : cg) : cg :=
  {| cg_prm := {| maxiter := maxiter (cg_prm e); tol := t |}; cg_n := cg_n e;
     cg_r := cg_r e; cg_s := cg_s e; cg_p := cg_p e; cg_q := cg_q e |}.

(** One trip round the loop as the backend computes it, in the notation of
    the documentation with the factors of [axpby] and [spmv] written out:
    [s := P.apply(r)]; [rho2 := rho1]; [rho1 := <r,s>]; [p := s] on the first
    iteration and [p := 1 s + (rho1/rho2) p] afterwards;
    [q := 1 (A p) + 0 q]; [alpha := rho1 / <q,p>];
    [x := alpha p + 1 x]; [r := (- alpha) q + 1 r]; then [iter] is
    incremented. *)
Definition cg_step (f : frame) : frame :=
  let s := apply (f_P f) (f_r f) in
  let rho2 := f_rho1 f in
  let rho1 := dot (f_r f) s in
  let p := if f_iter f =? 0 then s
           else vadd (vscale sone s) (vscale (sdiv rho1 rho2) (f_p f)) in
  let q := vadd (vscale sone (mv (f_A f) p)) (vscale szero (f_q f)) in
  let alpha := sdiv rho1 (dot q p) in
  let x := vadd (vscale alpha p) (vscale sone (f_x f)) in
  let r := vadd (vscale (sopp alpha) q) (vscale sone (f_r f)) in
  {| f_A := f_A f; f_P := f_P f; f_rhs := f_rhs f; f_x := x; f_prm := f_prm f;
     f_n := f_n f; f_r := r; f_s := s; f_p := p; f_q := q;
     f_rho1 := rho1; f_rho2 := rho2;
     f_norm_of_rhs := f_norm_of_rhs f; f_iter := S (f_iter f) |}.

Fixpoint cg_steps (j : nat) (f : frame) : frame :=
  match j with
  | O => f
  | S j' => cg_steps j' (cg_step f)
  end.

(** *** The caller's vectors as objects

    [operator()] takes [Vec1 const &rhs] and [Vec2 &x]: two references, which
    may name one object.  The caller's vectors are objects with names; a call
    is given the names of [rhs] and of [x].  The code reads [rhs] on lines
    119 and 122 only, before its first write to [x] (lines 125 and 148): it
    computes on the values the two names hold on entry, and at return the
    object named [x] holds the new [x], under whatever name it is read. *)
Definition objects : Type := nat -> vector.

Definition write (o : nat) (v : vector) (m : objects) : objects :=
  fun o' => if o' =? o then v else m o'.

(** What a call leaves: the caller's objects, the engine, the matrix and the
    preconditioner the caller passed, and the returned tuple. *)
Record world : Type := {
  w_objects : objects;
  w_engine : cg;
  w_A : matrix;
  w_P : precond;
  w_result : nat * V
}.

Definition call4 (e : cg) (A : matrix) (P : precond) (m : objects) (rhs x : nat) : world :=
  let fr := run e A P (m rhs) (m x) in
  {| w_objects := write x (f_x (fst fr)) m;
     w_engine := leave (fst fr);
     w_A := f_A (fst fr);
     w_P := f_P (fst fr);
     w_result := snd fr |}.

Definition call3 (e : cg) (P : amg_precond) (m : objects) (rhs x : nat) : world :=
  call4 e (top_matrix P) P m rhs x.

End Solver.

(** ** Instances *)

(** Dense matrices, stored by rows, over any value type: row [i] of [A v] is
    the inner product of row [i] of [A] with [v]. *)
Definition dense_mv {V : Type} {SV : Scalar V} (A : list (list V)) (v : list V) : list V :=
  map (fun row => fold_left sadd (map2 smul row v) szero) A.

Definition dense_backend {V : Type} {SV : Scalar V} : Backend V :=
  {| matrix := list (list V);
     backend_params := unit;
     backend_params_default := tt;
     create_vector := fun n _ => repeat szero n;
     mv := dense_mv |}.

(** [double]: IEEE binary64, with the comparisons of the hardware. *)
#[export] Instance double_scalar : Scalar float :=
  {| szero := 0%float;
     sone := 1%float;
     sadd := PrimFloat.add;
     ssub := PrimFloat.sub;
     smul := PrimFloat.mul;
     sdiv := PrimFloat.div;
     sopp := PrimFloat.opp;
     ssqrt := PrimFloat.sqrt;
     seqb := PrimFloat.eqb;
     sgtb := fun a b => PrimFloat.ltb b a;
     sleb := PrimFloat.leb;
     of_double := fun d => d |}.

(** The real value of a [double]; infinities and NaN have none and are sent
    to [0]. *)
Definition double_to_R (d : float) : R :=
  match Prim2SF d with
  | S754_finite sg m e =>
      let a := if sg then (- IZR (Zpos m))%R else IZR (Zpos m) in
      match e with
      | Zneg k => (a / IZR (Z.pow_pos 2 k))%R
      | _ => (a * IZR (2 ^ e))%R
      end
  | _ => 0%R
  end.

(** Exact arithmetic: the real numbers. *)
Definition real_scalar : Scalar R :=
  {| szero := 0%R;
     sone := 1%R;
     sadd := Rplus;
     ssub := Rminus;
     smul := Rmult;
     sdiv := Rdiv;
     sopp := Ropp;
     ssqrt := R_sqrt.sqrt;
     seqb := fun a b => if Req_dec_T a b then true else false;
     sgtb := fun a b => if Rgt_dec a b then true else false;
     sleb := fun a b => if Rle_dec a b then true else false;
     of_double := double_to_R |}.

#[export] Instance double_dense : Backend float := dense_backend.
Definition real_dense : Backend R := @dense_backend R real_scalar.

(** The identity preconditioner. *)
Definition identity_precond {V : Type} : @precond V := {| apply := fun v => v |}.

(** ** Concrete systems over [double] *)

Module DoubleSystems.

Open Scope float_scope.

Definition engine (n m : nat) (t : float) : @cg float :=
  cg_ctor n (Some {| maxiter := m; tol := t |}) None.

Definition default_engine (n : nat) : @cg float := cg_ctor n None None.

(** The 3x3 identity system of the documentation's scenario. *)
Definition eye3 : @matrix float double_dense := [[1; 0; 0]; [0; 1; 0]; [0; 0; 1]].

(** A singular 1x1 system. *)
Definition null1 : @matrix float double_dense := [[0]].

(** The 2x2 identity with a preconditioner that turns the residual by a
    right angle, so that [<r, s> = 0]. *)
Definition eye2 : @matrix float double_dense := [[1; 0]; [0; 1]].
Definition quarter_turn : @precond float :=
  {| apply := fun v => dense_mv [[0; -1]; [1; 0]] v |}.

(** A symmetric positive definite system with condition number 100. *)
Definition stiff2 : @matrix float double_dense := [[1; 0]; [0; 100]].

Definition one1 : @matrix float double_dense := [[1]].

Definition first_of (v : list float) : float :=
  match v with a :: _ => a | [] => 0 end.

(** The memory on entry of the call on [eye2] with the quarter turn, and of
    the call on the singular system. *)
Definition turn_entry : @frame float double_dense :=
  enter (default_engine 2) eye2 quarter_turn [1; 0] [0; 0].

Definition null_entry : @frame float double_dense :=
  enter (default_engine 1) null1 identity_precond [1] [0].

(** The first call of a pair on [one1], from a large initial guess. *)
Definition far_start : @outcome float :=
  solve4 (default_engine 1) one1 identity_precond [1] [0x1p60].

(** The engine as the call on [eye2] with the quarter turn leaves it: its
    [q] holds NaN. *)
Definition worn_engine : @cg float :=
  out_engine (solve4 (default_engine 2) eye2 quarter_turn [1; 0] [0; 0]).

Definition worn_entry : @frame float double_dense :=
  enter worn_engine eye2 identity_precond [1; 2] [0; 0].

(** The diagonal system of the documentation's scenario. *)
Definition diag3 : @matrix float double_dense := [[4; 0; 0]; [0; 9; 0]; [0; 0; 16]].

Definition diag3_first : @outcome float :=
  solve4 (default_engine 3) diag3 identity_precond [4; 9; 16] [0; 0; 0].

Definition two1 : @matrix float double_dense := [[2]].

(** One caller's vector, [[1]], under the name [0]. *)
Definition one_object : @objects float := fun _ => [1].

End DoubleSystems.

(** ** A concrete system over the reals *)

Module RealSystems.

Definition engine1 : @cg R :=
  @cg_ctor R real_scalar real_dense 1 None None.
Definition unit1 : @matrix R real_dense := [[1%R]].
Definition rhs1 : list R := [1%R].
Definition x1 : list R := [0%R].

End RealSystems.

(** ** The driver: the pressure mask given as a pattern

    The driver program takes the pressure mask either from a file or, when
    its [pmask] argument starts with ['%'], from a pattern ["%n:m"]: "each
    (n+i*m)-th variable is treated as pressure".  This is the pattern branch
    of [main], with what it takes from the C and C++ libraries:
    [std::string::substr], [std::atoi], and the arithmetic of [size_t]. *)

Module Driver.

Import String.StringSyntax Ascii.AsciiSyntax.
Import Stdlib.Strings.String Stdlib.Strings.Ascii.

(** [pm_file[0] == '%']; on the empty string [pm_file[0]] is the terminating
    zero. *)
Definition is_pattern (pm_file : string) : bool :=
  match pm_file with
  | String c _ => Ascii.eqb c "%"%char
  | EmptyString => false
  end.

(** [s.substr(pos)]: the suffix from [pos]; [std::out_of_range] when [pos]
    is beyond the length ([None]). *)
Fixpoint substr (pos : nat) (s : string) : option string :=
  match pos with
  | O => Some s
  | S k => match s with
           | String _ s' => substr k s'
           | EmptyString => None
           end
  end.

(** [isspace] in the C locale: space and the characters 9 to 13. *)
Definition isspace (c : ascii) : bool :=
  let k := nat_of_ascii c in (k =? 32) || ((9 <=? k) && (k <=? 13)).

Definition digit_of (c : ascii) : option Z :=
  let k := Z.of_nat (nat_of_ascii c) in
  if ((48 <=? k) && (k <=? 57))%Z then Some (k - 48)%Z else None.

Fixpoint skip_space (s : string) : string :=
  match s with
  | String c s' => if isspace c then skip_space s' else s
  | EmptyString => s
  end.

(** The decimal digits at the head of [s], read into [acc]. *)
Fixpoint digits_from (acc : Z) (s : string) : Z :=
  match s with
  | String c s' =>
      match digit_of c with
      | Some d => digits_from (10 * acc + d) s'
      | None => acc
      end
  | EmptyString => acc
  end.

(** The number [strtol(s, 0, 10)] reads: white space, an optional sign,
    digits; [0] when there is no digit. *)
Definition strtol10 (s : string) : Z :=
  match skip_space s with
  | String c s' =>
      if Ascii.eqb c "-"%char then (- digits_from 0 s')%Z
      else if Ascii.eqb c "+"%char then digits_from 0 s'
      else digits_from 0 (String c s')
  | EmptyString => 0%Z
  end.

Definition int_min : Z := (- 2 ^ 31)%Z.
Definition int_max : Z := (2 ^ 31 - 1)%Z.

(** [std::atoi]: the number read, when an [int] holds it; the behaviour is
    undefined otherwise ([None]). *)
Definition atoi (s : string) : option Z :=
  let v := strtol10 s in
  if ((int_min <=? v) && (v <=? int_max))%Z then Some v else None.

(** [size_t] is a 64-bit unsigned integer. *)
Definition size_max : Z := (2 ^ 64)%Z.
Definition to_size_t (v : Z) : Z := (v mod size_max)%Z.

(** [pm[i] = v] for [i] within the vector. *)
Fixpoint store {X : Type} (i : nat) (v : X) (l : list X) : list X :=
  match l, i with
  | [], _ => []
  | _ :: l', O => v :: l'
  | a :: l', S i' => a :: store i' v l'
  end.

(** Line 132: [for(size_t i = start; i < rows; i += stride) pm[i] = 1;]
    from the current [i], with [stride] already converted to [size_t].
    [None] when the loop is still running after [fuel] trips. *)
Fixpoint mark (fuel : nat) (rows : nat) (stride i : Z) (pm : list Byte.byte)
  : option (list Byte.byte) :=
  if (i <? Z.of_nat rows)%Z then
    match fuel with
    | O => None
    | S k => mark k rows stride ((i + stride) mod size_max)%Z
               (store (Z.to_nat i) Byte.x01 pm)
    end
  else Some pm.

Inductive mask_result : Type :=
| Mask (pm : list Byte.byte)
| Throws_out_of_range
| Undefined_behaviour
| Still_running.

(** Lines 129-132: the pattern branch. *)
Definition pattern_mask (fuel : nat) (rows : nat) (pm_file : string) : mask_result :=
  match substr 1 pm_file with
  | None => Throws_out_of_range
  | Some s1 =>
      match atoi s1 with
      | None => Undefined_behaviour
      | Some start =>
          match substr 3 pm_file with
          | None => Throws_out_of_range
          | Some s3 =>
              match atoi s3 with
              | None => Undefined_behaviour
              | Some stride =>
                  match mark fuel rows (to_size_t stride) (to_size_t start)
                             (repeat Byte.x00 rows) with
                  | Some pm => Mask pm
                  | None => Still_running
                  end
              end
          end
      end
  end.

(** The mask the help text describes: variable [j] is marked when
    [j = a + i b] for some [i >= 0]. *)
Definition stride_mask (rows : nat) (a b : Z) : list Byte.byte :=
  map (fun j => if ((a <=? Z.of_nat j) && ((Z.of_nat j - a) mod b =? 0))%Z
                then Byte.x01 else Byte.x00)
      (seq 0 rows).

(** The mask when the loop has come to [i]: the variables below [i] are
    done. *)
Definition marked_below (rows : nat) (a b i : Z) : list Byte.byte :=
  map (fun j => if ((a <=? Z.of_nat j) && (Z.of_nat j <? i)
                    && ((Z.of_nat j - a) mod b =? 0))%Z
                then Byte.x01 else Byte.x00)
      (seq 0 rows).

(** The mask a negative stride [- c] leaves: the variables [a], [a - c],
    [a - 2 c], ... down to zero. *)
Definition back_mask (rows : nat) (a c : Z) : list Byte.byte :=
  map (fun j => if ((Z.of_nat j <=? a) && ((a - Z.of_nat j) mod c =? 0))%Z
                then Byte.x01 else Byte.x00)
      (seq 0 rows).

(** On the way down, when the loop has come to [i]: the variables above [i]
    are done. *)
Definition marked_above (rows : nat) (a c i : Z) : list Byte.byte :=
  map (fun j => if ((i <? Z.of_nat j) && (Z.of_nat j <=? a)
                    && ((a - Z.of_nat j) mod c =? 0))%Z
                then Byte.x01 else Byte.x00)
      (seq 0 rows).

(** A mask holds zeros and ones. *)
Definition is_bit (c : Byte.byte) : Prop := c = Byte.x00 \/ c = Byte.x01.

(** [rest] does not start with a decimal digit. *)
Definition no_leading_digit (rest : string) : Prop :=
  match rest with
  | String c _ => digit_of c = None
  | EmptyString => True
  end.

(** The decimal digit [d] as a character. *)
Definition digit_char (d : nat) : ascii := ascii_of_nat (48 + d).

End Driver.

(** * Properties *)

Unset Implicit Arguments.

Section Facts.

Context {V : Type} {SV : Scalar V} {BV : Backend V}.

Implicit Types (f : @frame V BV) (e : @cg V) (A : matrix) (P : @precond V)
  (rhs x : @vector V).

(** ** What a trip round the loop leaves alone *)

Ltac unfold_body :=
  unfold next, incr, body, st_update, st_spmv, st_dir, st_rho, st_precond.

Lemma next_const f :
  f_A (next f) = f_A f /\ f_P (next f) = f_P f /\ f_rhs (next f) = f_rhs f /\
  f_prm (next f) = f_prm f /\ f_n (next f) = f_n f /\
  f_norm_of_rhs (next f) = f_norm_of_rhs f.
Proof.
  unfold_body. cbn. destruct (negb (f_iter f =? 0)); cbn; repeat split.
Qed.

Lemma next_iter f : f_iter (next f) = S (f_iter f).
Proof.
  unfold_body. cbn. destruct (negb (f_iter f =? 0)); reflexivity.
Qed.

Lemma trips_const j : forall f,
  f_A (trips j f) = f_A f /\ f_P (trips j f) = f_P f /\
  f_rhs (trips j f) = f_rhs f /\ f_prm (trips j f) = f_prm f /\
  f_n (trips j f) = f_n f /\ f_norm_of_rhs (trips j f) = f_norm_of_rhs f.
Proof.
  induction j as [|j IH]; intro f; cbn [trips].
  - repeat split.
  - destruct (IH (next f)) as (a & b & c & d & g & h).
    destruct (next_const f) as (a' & b' & c' & d' & g' & h').
    repeat split; congruence.
Qed.

Lemma trips_iter j : forall f, f_iter (trips j f) = f_iter f + j.
Proof.
  induction j as [|j IH]; intro f; cbn [trips].
  - lia.
  - rewrite IH, next_iter. lia.
Qed.

Lemma trips_snoc j : forall f, trips (S j) f = next (trips j f).
Proof.
  induction j as [|j IH]; intro f.
  - reflexivity.
  - change (trips (S (S j)) f) with (trips (S j) (next f)).
    rewrite IH. reflexivity.
Qed.

(** ** The loop *)

Lemma loop_trips k : forall f,
  loop k f = (trips (trip_count k f) f, rel_res (trips (trip_count k f) f)).
Proof.
  induction k as [|k IH]; intro f; cbn [loop trip_count].
  - destruct (continues f); reflexivity.
  - destruct (continues f); [|reflexivity].
    rewrite IH. reflexivity.
Qed.

Lemma trip_count_before k : forall f i,
  i < trip_count k f -> continues (trips i f) = true.
Proof.
  induction k as [|k IH]; intros f i; cbn [trip_count].
  - destruct (continues f); lia.
  - destruct (continues f) eqn:E; [|lia].
    destruct i as [|i]; intro H; [exact E|].
    cbn [trips]. apply IH. lia.
Qed.

Lemma trip_count_bound k : forall f, trip_count k f <= k.
Proof.
  induction k as [|k IH]; intro f; cbn [trip_count].
  - destruct (continues f); lia.
  - destruct (continues f); [|lia]. specialize (IH (next f)). lia.
Qed.

(** With [maxiter - iter] trips allowed the loop leaves through its test. *)
Lemma loop_exits k : forall f,
  maxiter (f_prm f) - f_iter f <= k ->
  continues (trips (trip_count k f) f) = false.
Proof.
  induction k as [|k IH]; intros f Hk; cbn [trip_count].
  - destruct (continues f) eqn:E; cbn [trips]; [|exact E].
    unfold continues in E. apply andb_prop in E as [_ E].
    apply Nat.ltb_lt in E. lia.
  - destruct (continues f) eqn:E; cbn [trips]; [|exact E].
    apply IH. destruct (next_const f) as (_ & _ & _ & -> & _).
    rewrite next_iter. lia.
Qed.

(** Beyond [maxiter - iter] the bound on the trips plays no part. *)
Lemma loop_bound_not_felt k : forall k' f,
  maxiter (f_prm f) - f_iter f <= k -> k <= k' -> loop k' f = loop k f.
Proof.
  induction k as [|k IH]; intros k' f Hk Hk'; cbn [loop].
  - destruct (continues f) eqn:E.
    + unfold continues in E. apply andb_prop in E as [_ E].
      apply Nat.ltb_lt in E. lia.
    + destruct k'; cbn [loop]; rewrite E; reflexivity.
  - destruct k' as [|k']; [lia|]. cbn [loop].
    destruct (continues f) eqn:E; [|reflexivity].
    apply IH; [|lia].
    destruct (next_const f) as (_ & _ & _ & -> & _). rewrite next_iter. lia.
Qed.

Lemma trip_count_le_maxiter k : forall f,
  f_iter f <= maxiter (f_prm f) ->
  f_iter f + trip_count k f <= maxiter (f_prm f).
Proof.
  induction k as [|k IH]; intros f Hf; cbn [trip_count].
  - destruct (continues f); lia.
  - destruct (continues f) eqn:E; [|lia].
    unfold continues in E. apply andb_prop in E as [_ E].
    apply Nat.ltb_lt in E.
    specialize (IH (next f)).
    destruct (next_const f) as (_ & _ & _ & Hp & _).
    rewrite Hp, next_iter in IH. lia.
Qed.

(** ** The two ways through a call *)

Lemma run_zero e A P rhs x :
  seqb (norm rhs) szero = true ->
  run e A P rhs x = (set_x (clear x) (enter e A P rhs x), (0, norm rhs)).
Proof.
  intro H. unfold run. cbn [enter f_norm_of_rhs f_x]. rewrite H. reflexivity.
Qed.

Lemma run_nonzero e A P rhs x :
  seqb (norm rhs) szero = false ->
  run e A P rhs x =
    (trips (trip_count (maxiter (cg_prm e)) (enter e A P rhs x)) (enter e A P rhs x),
     (trip_count (maxiter (cg_prm e)) (enter e A P rhs x),
      rel_res (trips (trip_count (maxiter (cg_prm e)) (enter e A P rhs x))
                     (enter e A P rhs x)))).
Proof.
  intro H. unfold run. cbn [enter f_norm_of_rhs f_prm]. rewrite H.
  fold (enter e A P rhs x). rewrite loop_trips, trips_iter. reflexivity.
Qed.

Lemma clear_repeat (v : @vector V) : clear v = repeat szero (length v).
Proof.
  unfold clear. induction v as [|a v IH]; cbn; [reflexivity|].
  now rewrite IH.
Qed.

(** The norm of an all-zero vector, from three facts about the number zero. *)
Lemma norm_zero_vector (m : nat) :
  smul szero szero = szero -> sadd szero szero = szero -> ssqrt szero = szero ->
  norm (repeat szero m) = szero.
Proof.
  intros Hm Ha Hs. unfold norm, inner_product, dot.
  assert (E : forall acc, acc = szero ->
             fold_left sadd (map2 smul (repeat szero m) (repeat szero m)) acc = szero).
  { induction m as [|m IH]; intros acc ->; cbn; [reflexivity|].
    apply IH. now rewrite Hm, Ha. }
  rewrite (E szero eq_refl). exact Hs.
Qed.

(** C3. When the norm of the right-hand side compares equal to zero, the call
    fills [x] with zeros and returns zero iterations together with that norm,
    which compares equal to zero, and is zero where [==] is equality; no trip
    round the loop is made: [s], [p] and [q] keep their content, [r] holds the
    residual computed on entry.  The initial content of [x] plays no part. *)
Theorem zero_rhs_short_circuit e A P rhs x :
  seqb (norm rhs) szero = true ->
  solve4 e A P rhs x =
    {| out_engine := {| cg_prm := cg_prm e; cg_n := cg_n e;
                        cg_r := residual rhs A x;
                        cg_s := cg_s e; cg_p := cg_p e; cg_q := cg_q e |};
       out_x := repeat szero (length x);
       out_result := (0, norm rhs) |}
  /\ seqb (snd (out_result (solve4 e A P rhs x))) szero = true
  /\ ((forall a : V, seqb a szero = true -> a = szero) ->
      out_result (solve4 e A P rhs x) = (0, szero)).
Proof.
  intro H. unfold solve4. rewrite (run_zero e A P rhs x H).
  unfold outcome_of, leave. cbn. rewrite clear_repeat.
  split; [reflexivity|]. split; [exact H|].
  intro L. now rewrite (L _ H).
Qed.

(** C4. The three-argument call is the four-argument call on the matrix the
    preconditioner hands out: same memory, same returned tuple, same final [x]
    and engine. *)
Theorem solve3_delegates e (P3 : amg_precond) rhs x :
  run3 e P3 rhs x = run e (top_matrix P3) P3 rhs x /\
  solve3 e P3 rhs x = solve4 e (top_matrix P3) P3 rhs x.
Proof.
  split; reflexivity.
Qed.

(** C2, as the code has it.  For a call with a right-hand side of nonzero
    norm: the memory at return is that after [it] trips round the loop, where
    [it] is the returned iteration count; before each of these trips the test
    [res > tol] held and the count was below [maxiter]; at return the test
    [res > tol] fails or [it = maxiter]; hence a returned residual with
    [res > tol] comes with [it = maxiter]; the returned residual is the one
    the last test computed from [r], it is not recomputed.  The function is
    total: nothing is thrown. *)
Theorem stopping_rule e A P rhs x :
  seqb (norm rhs) szero = false ->
  let f0 := enter e A P rhs x in
  let out := run e A P rhs x in
  let it := fst (snd out) in
  let res := snd (snd out) in
  fst out = trips it f0 /\
  (forall i, i < it ->
     sgtb (rel_res (trips i f0)) (tol (cg_prm e)) = true /\ i < maxiter (cg_prm e)) /\
  (sgtb res (tol (cg_prm e)) = false \/ it = maxiter (cg_prm e)) /\
  (sgtb res (tol (cg_prm e)) = true -> it = maxiter (cg_prm e)) /\
  it <= maxiter (cg_prm e) /\
  res = sdiv (norm (f_r (fst out))) (norm rhs).
Proof.
  intros H f0 out it res.
  assert (Hout : out = (trips (trip_count (maxiter (cg_prm e)) f0) f0,
                        (trip_count (maxiter (cg_prm e)) f0,
                         rel_res (trips (trip_count (maxiter (cg_prm e)) f0) f0))))
    by (apply run_nonzero; exact H).
  assert (Hit : it = trip_count (maxiter (cg_prm e)) f0) by (unfold it; now rewrite Hout).
  assert (Hres : res = rel_res (trips it f0)) by (unfold res; rewrite Hit, Hout; reflexivity).
  assert (Hfst : fst out = trips it f0) by (rewrite Hit, Hout; reflexivity).
  assert (Hexit : continues (trips it f0) = false).
  { rewrite Hit. apply loop_exits. cbn. lia. }
  assert (Hprm : f_prm (trips it f0) = cg_prm e).
  { destruct (trips_const it f0) as (_ & _ & _ & -> & _). reflexivity. }
  assert (Hle : it <= maxiter (cg_prm e)).
  { rewrite Hit. apply trip_count_bound. }
  assert (Hstop : sgtb res (tol (cg_prm e)) = false \/ it = maxiter (cg_prm e)).
  { unfold continues in Hexit. rewrite Hprm, trips_iter, <- Hres in Hexit.
    cbn [f_iter enter f0] in Hexit.
    apply andb_false_iff in Hexit as [E|E]; [left; exact E|right].
    apply Nat.ltb_ge in E. lia. }
  repeat split; try assumption.
  - rename H0 into Hi.
    pose proof (trip_count_before (maxiter (cg_prm e)) f0 i) as B.
    rewrite <- Hit in B. specialize (B Hi). unfold continues in B.
    apply andb_prop in B as [B _].
    destruct (trips_const i f0) as (_ & _ & _ & Hp & _). rewrite Hp in B. exact B.
  - rename H0 into Hi.
    pose proof (trip_count_before (maxiter (cg_prm e)) f0 i) as B.
    rewrite <- Hit in B. specialize (B Hi). unfold continues in B.
    apply andb_prop in B as [_ B]. apply Nat.ltb_lt in B.
    destruct (trips_const i f0) as (_ & _ & _ & Hp & _).
    rewrite Hp, trips_iter in B. cbn in B. exact B.
  - intro G. destruct Hstop as [E|E]; [congruence|exact E].
  - rewrite Hres, Hfst. unfold rel_res.
    destruct (trips_const it f0) as (_ & _ & _ & _ & _ & ->). reflexivity.
Qed.

(** The same under a total order, in the words of the documentation: the
    call stops with [res <= tol] or with [it = maxiter], and a return without
    convergence has [it = maxiter] and [res > tol]. *)
Lemma stopping_rule_total_order e A P rhs x :
  total_order ->
  seqb (norm rhs) szero = false ->
  let out := run e A P rhs x in
  let it := fst (snd out) in
  let res := snd (snd out) in
  (sleb res (tol (cg_prm e)) = true \/ it = maxiter (cg_prm e)) /\
  (sleb res (tol (cg_prm e)) = false ->
     it = maxiter (cg_prm e) /\ sgtb res (tol (cg_prm e)) = true).
Proof.
  intros T H out it res.
  assert (Hout : out = (trips (trip_count (maxiter (cg_prm e)) (enter e A P rhs x))
                              (enter e A P rhs x),
                        (trip_count (maxiter (cg_prm e)) (enter e A P rhs x),
                         rel_res (trips (trip_count (maxiter (cg_prm e)) (enter e A P rhs x))
                                        (enter e A P rhs x)))))
    by (apply run_nonzero; exact H).
  pose proof (loop_exits (maxiter (cg_prm e)) (enter e A P rhs x)) as X.
  cbn [f_prm f_iter enter] in X. specialize (X ltac:(lia)).
  fold (enter e A P rhs x) in X.
  unfold continues in X.
  destruct (trips_const (trip_count (maxiter (cg_prm e)) (enter e A P rhs x))
                        (enter e A P rhs x)) as (_ & _ & _ & Hp & _).
  rewrite Hp, trips_iter in X. cbn [f_prm f_iter enter] in X.
  assert (R1 : res = rel_res (trips (trip_count (maxiter (cg_prm e)) (enter e A P rhs x))
                                    (enter e A P rhs x)))
    by (unfold res; now rewrite Hout).
  assert (I1 : it = trip_count (maxiter (cg_prm e)) (enter e A P rhs x))
    by (unfold it; now rewrite Hout).
  rewrite <- R1, <- I1 in X.
  pose proof (trip_count_bound (maxiter (cg_prm e)) (enter e A P rhs x)) as B.
  rewrite <- I1 in B.
  rewrite (T res (tol (cg_prm e))).
  apply andb_false_iff in X as [E|E].
  - rewrite E. cbn. split; [now left|discriminate].
  - apply Nat.ltb_ge in E. cbn in E. split; [right; lia|].
    intro G. split; [lia|]. now destruct (sgtb res (tol (cg_prm e))).
Qed.

(** C5, for a right-hand side of nonzero norm.  With [maxiter = 0] the call
    makes no trip round the loop: it returns zero iterations and the relative
    residual of the initial [x], the norm of [rhs - A x] over the norm of
    [rhs]; [x], [s], [p] and [q] are as they were, [r] holds the residual
    computed on entry. *)
Theorem maxiter_zero_returns_initial_residual e A P rhs x :
  maxiter (cg_prm e) = 0 ->
  seqb (norm rhs) szero = false ->
  solve4 e A P rhs x =
    {| out_engine := {| cg_prm := cg_prm e; cg_n := cg_n e;
                        cg_r := residual rhs A x;
                        cg_s := cg_s e; cg_p := cg_p e; cg_q := cg_q e |};
       out_x := x;
       out_result := (0, sdiv (norm (residual rhs A x)) (norm rhs)) |}.
Proof.
  intros Hm H. unfold solve4. rewrite (run_nonzero e A P rhs x H), Hm.
  cbn [trip_count]. destruct (continues (enter e A P rhs x)); reflexivity.
Qed.

(** Of the memory of a call, only [x], the scratch vectors and the locals
    change: at return the fields of the matrix, the preconditioner, the
    right-hand side, the parameters and the size of the engine are what they
    were on entry, for both forms of the call.  (The field [f_rhs] is the
    value read on entry; for the caller's object see [call_writes_only_x].) *)
Lemma solve_frame e A P (P3 : amg_precond) rhs x :
  (f_A (fst (run e A P rhs x)) = A /\
   f_P (fst (run e A P rhs x)) = P /\
   f_rhs (fst (run e A P rhs x)) = rhs /\
   f_prm (fst (run e A P rhs x)) = cg_prm e /\
   f_n (fst (run e A P rhs x)) = cg_n e /\
   cg_prm (out_engine (solve4 e A P rhs x)) = cg_prm e) /\
  (f_A (fst (run3 e P3 rhs x)) = top_matrix P3 /\
   f_P (fst (run3 e P3 rhs x)) = as_precond P3 /\
   f_rhs (fst (run3 e P3 rhs x)) = rhs /\
   f_prm (fst (run3 e P3 rhs x)) = cg_prm e /\
   f_n (fst (run3 e P3 rhs x)) = cg_n e /\
   cg_prm (out_engine (solve3 e P3 rhs x)) = cg_prm e).
Proof.
  assert (G : forall A' P',
    f_A (fst (run e A' P' rhs x)) = A' /\
    f_P (fst (run e A' P' rhs x)) = P' /\
    f_rhs (fst (run e A' P' rhs x)) = rhs /\
    f_prm (fst (run e A' P' rhs x)) = cg_prm e /\
    f_n (fst (run e A' P' rhs x)) = cg_n e).
  { intros A' P'. destruct (seqb (norm rhs) szero) eqn:E.
    - rewrite (run_zero e A' P' rhs x E). cbn. repeat split.
    - rewrite (run_nonzero e A' P' rhs x E). cbn [fst].
      destruct (trips_const (trip_count (maxiter (cg_prm e)) (enter e A' P' rhs x))
                            (enter e A' P' rhs x)) as (a & b & c & d & g & _).
      rewrite a, b, c, d, g. cbn. repeat split. }
  split.
  - destruct (G A P) as (a & b & c & d & g). repeat split; assumption.
  - destruct (G (top_matrix P3) (as_precond P3)) as (a & b & c & d & g).
    unfold run3. repeat split; assumption.
Qed.

(** A call with a right-hand side of nonzero norm, by its loop test: the
    number of trips, the memory and the residual returned, and what the test
    said before each trip and at the end. *)
Lemma call_stops_by_test e A P rhs x :
  seqb (norm rhs) szero = false ->
  run e A P rhs x =
    (trips (fst (snd (run e A P rhs x))) (enter e A P rhs x),
     (fst (snd (run e A P rhs x)),
      rel_res (trips (fst (snd (run e A P rhs x))) (enter e A P rhs x)))) /\
  (forall i, i < fst (snd (run e A P rhs x)) ->
     sgtb (rel_res (trips i (enter e A P rhs x))) (tol (cg_prm e)) = true /\
     i < maxiter (cg_prm e)) /\
  (sgtb (snd (snd (run e A P rhs x))) (tol (cg_prm e)) = false \/
   fst (snd (run e A P rhs x)) = maxiter (cg_prm e)) /\
  fst (snd (run e A P rhs x)) <= maxiter (cg_prm e).
Proof.
  intro E. rewrite (run_nonzero e A P rhs x E). cbn [fst snd].
  set (f0 := enter e A P rhs x). set (j := trip_count (maxiter (cg_prm e)) f0).
  split; [reflexivity|]. split; [|split].
  - intros i Hi.
    pose proof (trip_count_before (maxiter (cg_prm e)) f0 i Hi) as B.
    unfold continues in B. apply andb_prop in B as [B1 B2].
    destruct (trips_const i f0) as (_ & _ & _ & Hp & _).
    rewrite Hp in B1, B2. rewrite trips_iter in B2. apply Nat.ltb_lt in B2.
    cbn in B1, B2. split; assumption.
  - pose proof (loop_exits (maxiter (cg_prm e)) f0) as X.
    cbn [f0 enter f_prm f_iter] in X. specialize (X ltac:(lia)).
    fold f0 in X. fold j in X. unfold continues in X.
    destruct (trips_const j f0) as (_ & _ & _ & Hp & _).
    rewrite Hp, trips_iter in X. cbn [f0 enter f_prm f_iter] in X.
    pose proof (trip_count_bound (maxiter (cg_prm e)) f0) as Bd. fold j in Bd.
    apply andb_false_iff in X as [X|X]; [left; exact X|right].
    apply Nat.ltb_ge in X. cbn in X. lia.
  - apply trip_count_bound.
Qed.

(** C10. The parameters constructed without arguments are [maxiter = 100] and
    [tol = 1e-8] (the [double] literal, converted to the value type), and an
    engine constructed without parameters holds them.  A call on such an
    engine with a right-hand side of nonzero norm stops by these two values:
    before each of the iterations it returns the residual exceeded [1e-8]
    and the count was below [100]; at return the test [res > 1e-8] fails or
    the count is [100]; the count never exceeds [100]. *)
Theorem default_params n (bp : option backend_params) A P rhs x :
  params_ctor None None = {| maxiter := 100; tol := of_double 1e-8%float |} /\
  cg_prm (cg_ctor n None bp) = {| maxiter := 100; tol := of_double 1e-8%float |} /\
  (seqb (norm rhs) szero = false ->
   run (cg_ctor n None bp) A P rhs x =
     (trips (fst (out_result (solve4 (cg_ctor n None bp) A P rhs x)))
            (enter (cg_ctor n None bp) A P rhs x),
      (fst (out_result (solve4 (cg_ctor n None bp) A P rhs x)),
       rel_res (trips (fst (out_result (solve4 (cg_ctor n None bp) A P rhs x)))
                      (enter (cg_ctor n None bp) A P rhs x)))) /\
   (forall i, i < fst (out_result (solve4 (cg_ctor n None bp) A P rhs x)) ->
      sgtb (rel_res (trips i (enter (cg_ctor n None bp) A P rhs x)))
           (of_double 1e-8%float) = true /\ i < 100) /\
   (sgtb (snd (out_result (solve4 (cg_ctor n None bp) A P rhs x)))
         (of_double 1e-8%float) = false \/
    fst (out_result (solve4 (cg_ctor n None bp) A P rhs x)) = 100) /\
   fst (out_result (solve4 (cg_ctor n None bp) A P rhs x)) <= 100).
Proof.
  split; [reflexivity|]. split; [reflexivity|].
  intro E. exact (call_stops_by_test (cg_ctor n None bp) A P rhs x E).
Qed.

(** ** Changing the iteration limit *)

Lemma next_set_prm prm f : next (set_prm prm f) = set_prm prm (next f).
Proof.
  unfold next, incr, body, st_update, st_spmv, st_dir, st_rho, st_precond.
  cbn. destruct (negb (f_iter f =? 0)); reflexivity.
Qed.

Lemma rel_res_set_prm prm f : rel_res (set_prm prm f) = rel_res f.
Proof. reflexivity. Qed.

Lemma continues_set_prm m (t : V) f :
  continues (set_prm {| maxiter := m; tol := t |} f) =
  sgtb (rel_res f) t && (f_iter f <? m).
Proof. reflexivity. Qed.

Lemma enter_with_maxiter m e A P rhs x :
  enter (with_maxiter m e) A P rhs x =
  set_prm {| maxiter := m; tol := tol (cg_prm e) |} (enter e A P rhs x).
Proof. reflexivity. Qed.

(** Once the loop with the smaller limit has left with the test [res > tol]
    failed, the loop with the larger limit makes the same trips. *)
Lemma trip_count_converged (t : V) (m1 m2 : nat) :
  m1 <= m2 ->
  forall k1 k2 f,
    m1 - f_iter f <= k1 -> m2 - f_iter f <= k2 ->
    sgtb (rel_res (trips (trip_count k1 (set_prm {| maxiter := m1; tol := t |} f)) f)) t = false ->
    trip_count k2 (set_prm {| maxiter := m2; tol := t |} f) =
    trip_count k1 (set_prm {| maxiter := m1; tol := t |} f).
Proof.
  intros Hm. induction k1 as [|k1 IH]; intros k2 f H1 H2 Hc.
  - cbn [trip_count] in Hc |- *. rewrite continues_set_prm in Hc |- *.
    destruct (sgtb (rel_res f) t) eqn:E; cbn [andb] in Hc |- *.
    + destruct (f_iter f <? m1) eqn:L.
      * apply Nat.ltb_lt in L. lia.
      * cbn [trips] in Hc. congruence.
    + destruct k2; cbn [trip_count]; rewrite continues_set_prm, E; reflexivity.
  - cbn [trip_count] in Hc |- *. rewrite continues_set_prm in Hc |- *.
    destruct (sgtb (rel_res f) t) eqn:E; cbn [andb] in Hc |- *.
    + destruct (f_iter f <? m1) eqn:L.
      * apply Nat.ltb_lt in L.
        assert (L2 : (f_iter f <? m2) = true) by (apply Nat.ltb_lt; lia).
        destruct k2 as [|k2]; [lia|].
        cbn [trip_count]. rewrite continues_set_prm, E, L2. cbn [andb].
        rewrite next_set_prm in Hc |- *. rewrite next_set_prm. f_equal.
        cbn [trips] in Hc.
        apply IH; try assumption; rewrite next_iter; lia.
      * cbn [trips] in Hc. congruence.
    + destruct k2; cbn [trip_count]; rewrite continues_set_prm, E; reflexivity.
Qed.

Lemma trips_set_prm prm j : forall f, trips j (set_prm prm f) = set_prm prm (trips j f).
Proof.
  induction j as [|j IH]; intro f; cbn [trips]; [reflexivity|].
  now rewrite next_set_prm, IH.
Qed.

(** A larger limit makes at least as many trips. *)
Lemma trip_count_mono (t : V) (m1 m2 : nat) :
  m1 <= m2 ->
  forall k1 k2 f,
    m1 - f_iter f <= k1 -> m2 - f_iter f <= k2 ->
    trip_count k1 (set_prm {| maxiter := m1; tol := t |} f) <=
    trip_count k2 (set_prm {| maxiter := m2; tol := t |} f).
Proof.
  intros Hm. induction k1 as [|k1 IH]; intros k2 f H1 H2.
  - cbn [trip_count]. destruct (continues _); lia.
  - cbn [trip_count]. rewrite continues_set_prm.
    destruct (sgtb (rel_res f) t) eqn:E; cbn [andb]; [|lia].
    destruct (f_iter f <? m1) eqn:L; [|lia].
    apply Nat.ltb_lt in L.
    assert (L2 : (f_iter f <? m2) = true) by (apply Nat.ltb_lt; lia).
    destruct k2 as [|k2]; [lia|].
    cbn [trip_count]. rewrite continues_set_prm, E, L2. cbn [andb].
    rewrite !next_set_prm. apply le_n_S.
    apply IH; rewrite next_iter; lia.
Qed.

(** C9, for a run that converged.  For one system and one tolerance and
    limits [m1 <= m2], the call with limit [m2] makes at least as many
    iterations as the call with limit [m1]; if the call with limit [m1]
    returns a residual for which the test [res > tol] fails, then the call
    with limit [m2] returns the same iteration count and the same residual,
    and leaves the same [x]: raising the limit does not raise the
    residual. *)
Theorem converged_result_stable_in_maxiter e A P rhs x (m1 m2 : nat) :
  m1 <= m2 ->
  fst (out_result (solve4 (with_maxiter m1 e) A P rhs x)) <=
    fst (out_result (solve4 (with_maxiter m2 e) A P rhs x)) /\
  (sgtb (snd (out_result (solve4 (with_maxiter m1 e) A P rhs x))) (tol (cg_prm e)) = false ->
   out_result (solve4 (with_maxiter m2 e) A P rhs x) =
     out_result (solve4 (with_maxiter m1 e) A P rhs x) /\
   out_x (solve4 (with_maxiter m2 e) A P rhs x) =
     out_x (solve4 (with_maxiter m1 e) A P rhs x)).
Proof.
  intros Hm. unfold solve4.
  destruct (seqb (norm rhs) szero) eqn:E.
  - rewrite !(run_zero _ A P rhs x E). cbn. split; [lia|]. intros _. split; reflexivity.
  - rewrite (run_nonzero (with_maxiter m1 e) A P rhs x E).
    rewrite (run_nonzero (with_maxiter m2 e) A P rhs x E).
    rewrite !enter_with_maxiter. cbn [with_maxiter cg_prm maxiter].
    cbn [outcome_of out_result out_x fst snd].
    split.
    + apply (trip_count_mono (tol (cg_prm e)) m1 m2 Hm); cbn; lia.
    + intro Hc. rewrite trips_set_prm, rel_res_set_prm in Hc.
      rewrite (trip_count_converged (tol (cg_prm e)) m1 m2 Hm m1 m2 (enter e A P rhs x)).
      * rewrite !trips_set_prm, !rel_res_set_prm. split; reflexivity.
      * cbn. lia.
      * cbn. lia.
      * exact Hc.
Qed.

(** C8, when the recomputed residual meets the tolerance.  For a right-hand
    side of nonzero norm, if the relative residual recomputed from the [x] a
    call returned, the norm of [rhs - A x] over the norm of [rhs], fails the
    test [res > tol], then a second call on the same engine with the returned
    [x], the same [A] and the same [rhs] returns zero iterations and that
    recomputed residual, and leaves [x] as it was.  The residual is the one
    the first call returned, and the engine is left as it was, when the
    recomputed residual vector is the [r] the engine carries, as it is in
    exact arithmetic. *)
Theorem second_solve_is_idle e A P rhs x :
  seqb (norm rhs) szero = false ->
  sgtb (sdiv (norm (residual rhs A (out_x (solve4 e A P rhs x)))) (norm rhs))
       (tol (cg_prm e)) = false ->
  out_result (solve4 (out_engine (solve4 e A P rhs x)) A P rhs (out_x (solve4 e A P rhs x)))
    = (0, sdiv (norm (residual rhs A (out_x (solve4 e A P rhs x)))) (norm rhs)) /\
  out_x (solve4 (out_engine (solve4 e A P rhs x)) A P rhs (out_x (solve4 e A P rhs x)))
    = out_x (solve4 e A P rhs x) /\
  (residual rhs A (out_x (solve4 e A P rhs x)) = cg_r (out_engine (solve4 e A P rhs x)) ->
   sdiv (norm (residual rhs A (out_x (solve4 e A P rhs x)))) (norm rhs)
     = snd (out_result (solve4 e A P rhs x)) /\
   out_engine (solve4 (out_engine (solve4 e A P rhs x)) A P rhs
                 (out_x (solve4 e A P rhs x)))
     = out_engine (solve4 e A P rhs x)).
Proof.
  intros E Hc. unfold solve4 in *.
  rewrite (run_nonzero e A P rhs x E) in *.
  set (f0 := enter e A P rhs x) in *.
  set (f1 := trips (trip_count (maxiter (cg_prm e)) f0) f0) in *.
  cbn [outcome_of out_result out_x out_engine fst snd] in *.
  rewrite (run_nonzero (leave f1) A P rhs (f_x f1) E).
  destruct (trips_const (trip_count (maxiter (cg_prm e)) f0) f0)
    as (_ & _ & _ & Hp & _ & Hn).
  fold f1 in Hp, Hn. cbn [f0 enter f_prm f_norm_of_rhs] in Hp, Hn.
  assert (Hres : rel_res (enter (leave f1) A P rhs (f_x f1)) =
                 sdiv (norm (residual rhs A (f_x f1))) (norm rhs)) by reflexivity.
  assert (Hstop : continues (enter (leave f1) A P rhs (f_x f1)) = false).
  { unfold continues. rewrite Hres. cbn [enter f_prm leave cg_prm]. rewrite Hp, Hc.
    reflexivity. }
  assert (Hcount : trip_count (maxiter (cg_prm (leave f1))) (enter (leave f1) A P rhs (f_x f1)) = 0).
  { destruct (maxiter (cg_prm (leave f1))); cbn [trip_count]; rewrite Hstop; reflexivity. }
  rewrite Hcount. cbn [trips fst snd]. rewrite Hres.
  split; [reflexivity|]. split; [reflexivity|].
  intro Hr. split.
  - unfold rel_res. rewrite Hr, Hn. reflexivity.
  - unfold leave at 1. cbn [enter f_prm f_n f_r f_s f_p f_q]. rewrite Hr. reflexivity.
Qed.

(** The two divisions of the loop body are made whatever their denominators
    are. *)
Lemma divisions_of_body f :
  (f_iter f <> 0 ->
   f_p (st_dir f) = axpby sone (f_s f) (sdiv (f_rho1 f) (f_rho2 f)) (f_p f)) /\
  f_x (st_update f) =
    axpby (sdiv (f_rho1 f) (inner_product (f_q f) (f_p f))) (f_p f) sone (f_x f) /\
  f_r (st_update f) =
    axpby (sopp (sdiv (f_rho1 f) (inner_product (f_q f) (f_p f)))) (f_q f) sone (f_r f).
Proof.
  split; [|split; reflexivity].
  intro H. unfold st_dir. destruct (f_iter f =? 0) eqn:E.
  - apply Nat.eqb_eq in E. contradiction.
  - reflexivity.
Qed.

(** ** The loop body in the formulas of the documentation *)

Lemma map2_length {X Y Z : Type} (g : X -> Y -> Z) (xs : list X) : forall ys,
  length (map2 g xs ys) = Nat.min (length xs) (length ys).
Proof.
  induction xs as [|a xs IH]; intros [|b ys]; cbn; try reflexivity.
  now rewrite IH.
Qed.

Lemma map2_ext {X Y Z : Type} (g h : X -> Y -> Z) :
  (forall a b, g a b = h a b) -> forall xs ys, map2 g xs ys = map2 h xs ys.
Proof.
  intros E. induction xs as [|a xs IH]; intros [|b ys]; cbn; try reflexivity.
  now rewrite E, IH.
Qed.

Lemma map2_map_r {X Y Y' Z : Type} (g : X -> Y' -> Z) (h : Y -> Y') (xs : list X) :
  forall ys, map2 g xs (map h ys) = map2 (fun a b => g a (h b)) xs ys.
Proof.
  induction xs as [|a xs IH]; intros [|b ys]; cbn; try reflexivity.
  now rewrite IH.
Qed.

Lemma map2_swap {X Y Z : Type} (g : X -> Y -> Z) (xs : list X) :
  forall ys, map2 g xs ys = map2 (fun b a => g a b) ys xs.
Proof.
  induction xs as [|a xs IH]; intros [|b ys]; cbn; try reflexivity.
  now rewrite IH.
Qed.

Lemma map2_fst {X Y : Type} (g : X -> Y -> X) (xs : list X) :
  (forall a b, g a b = a) ->
  forall ys, length xs = length ys -> map2 g xs ys = xs.
Proof.
  intros E. induction xs as [|a xs IH]; intros [|b ys] L; cbn in *;
    try reflexivity; try discriminate.
  rewrite E, IH; [reflexivity|lia].
Qed.

Section ExactArithmetic.

Hypothesis exact : exact_arithmetic.

Lemma axpby_one_l (u : @vector V) (b : V) (v : vector) :
  axpby sone u b v = vadd u (vscale b v).
Proof.
  unfold axpby, vadd, vscale. rewrite map2_map_r. apply map2_ext.
  intros a c. now rewrite (mul_one_l exact).
Qed.

Lemma axpby_one_r (a : V) (u v : @vector V) :
  axpby a u sone v = vadd v (vscale a u).
Proof.
  unfold axpby, vadd, vscale. rewrite map2_map_r, map2_swap. apply map2_ext.
  intros c d. now rewrite (mul_one_l exact), (add_comm exact).
Qed.

Lemma axpby_opp_one (a : V) (u v : @vector V) :
  axpby (sopp a) u sone v = vsub v (vscale a u).
Proof.
  unfold axpby, vsub, vscale. rewrite map2_map_r, map2_swap. apply map2_ext.
  intros c d. now rewrite (mul_one_l exact), (opp_mul_add exact).
Qed.

Lemma spmv_one_zero A (u v : @vector V) :
  length (mv A u) = length v -> spmv sone A u szero v = mv A u.
Proof.
  intro L. unfold spmv. apply map2_fst; [|exact L].
  intros a b. now rewrite (mul_one_l exact), (add_mul_zero exact).
Qed.

(** One trip round the loop is one step of the method. *)
Lemma next_is_pcg_step (n : nat) f : sized n f -> next f = pcg_step f.
Proof.
  intros [HA HP Hx Hr Hs Hp Hq].
  destruct f as [A0 P0 rhs0 x0 prm0 n0 r0 s0 p0 q0 rho1 rho2 nrm it].
  cbn in HA, HP, Hx, Hr, Hs, Hp, Hq.
  assert (Ls : length (apply P0 r0) = n) by (apply HP; exact Hr).
  unfold next, incr, body, st_update, alpha_of, st_spmv, st_dir, st_rho, st_precond,
    pcg_step, inner_product, copy.
  destruct it as [|it]; cbn -[axpby spmv vadd vsub vscale dot].
  - rewrite spmv_one_zero, axpby_opp_one, axpby_one_r; [reflexivity|].
    rewrite Hq. apply HA. exact Ls.
  - rewrite axpby_one_l.
    rewrite spmv_one_zero, axpby_opp_one, axpby_one_r; [reflexivity|].
    rewrite Hq. apply HA. unfold vadd, vscale.
    rewrite map2_length, length_map, Ls, Hp. lia.
Qed.

End ExactArithmetic.

Lemma vadd_vscale_length (n : nat) (a : V) (u v : @vector V) :
  length u = n -> length v = n -> length (vadd u (vscale a v)) = n.
Proof.
  intros Hu Hv. unfold vadd, vscale. rewrite map2_length, length_map, Hu, Hv. lia.
Qed.

Lemma vsub_vscale_length (n : nat) (a : V) (u v : @vector V) :
  length u = n -> length v = n -> length (vsub u (vscale a v)) = n.
Proof.
  intros Hu Hv. unfold vsub, vscale. rewrite map2_length, length_map, Hu, Hv. lia.
Qed.

Lemma pcg_step_sized (n : nat) f : sized n f -> sized n (pcg_step f).
Proof.
  intros [HA HP Hx Hr Hs Hp Hq].
  destruct f as [A0 P0 rhs0 x0 prm0 n0 r0 s0 p0 q0 rho1 rho2 nrm it].
  cbn in HA, HP, Hx, Hr, Hs, Hp, Hq.
  assert (Ls : length (apply P0 r0) = n) by (apply HP; exact Hr).
  unfold pcg_step.
  destruct it as [|it]; constructor; cbn -[vadd vsub vscale dot]; try assumption;
    repeat first [ apply vadd_vscale_length | apply vsub_vscale_length
                 | apply HA | assumption ].
Qed.

Lemma enter_sized e A P rhs x :
  cg_sized e -> square (cg_n e) A -> preserves_size (cg_n e) P ->
  length rhs = cg_n e -> length x = cg_n e ->
  sized (cg_n e) (enter e A P rhs x).
Proof.
  intros [Er Es Ep Eq] HA HP Hrhs Hx. constructor; cbn; try assumption.
  unfold residual. rewrite map2_length, Hrhs, (HA x Hx). lia.
Qed.

Lemma trips_are_pcg_steps (n j : nat) :
  exact_arithmetic ->
  forall f, sized n f -> trips j f = pcg_steps j f /\ sized n (trips j f).
Proof.
  intro X. induction j as [|j IH]; intros f Hf; cbn [trips pcg_steps].
  - split; [reflexivity|exact Hf].
  - rewrite (next_is_pcg_step X n f Hf). apply IH. apply pcg_step_sized. exact Hf.
Qed.

(** In exact arithmetic and for a system of the size of the engine, a call
    with a right-hand side of nonzero norm makes its trips round the loop as
    steps of the preconditioned conjugate gradient method in the formulas of
    the documentation, [pcg_step]. *)
Lemma loop_trip_is_pcg_step e A P rhs x :
  exact_arithmetic ->
  cg_sized e -> square (cg_n e) A -> preserves_size (cg_n e) P ->
  length rhs = cg_n e -> length x = cg_n e ->
  seqb (norm rhs) szero = false ->
  (forall j, trips (S j) (enter e A P rhs x) = pcg_step (trips j (enter e A P rhs x))) /\
  fst (run e A P rhs x) = pcg_steps (fst (snd (run e A P rhs x))) (enter e A P rhs x).
Proof.
  intros X He HA HP Hrhs Hx E.
  pose proof (enter_sized e A P rhs x He HA HP Hrhs Hx) as S0.
  split.
  - intro j. rewrite trips_snoc.
    apply (next_is_pcg_step X (cg_n e)).
    apply (trips_are_pcg_steps (cg_n e) j X _ S0).
  - rewrite (run_nonzero e A P rhs x E). cbn [fst snd].
    apply (trips_are_pcg_steps (cg_n e) _ X _ S0).
Qed.

(** ** The residual the engine carries

    In exact arithmetic and for a linear [A] the vector [r] is the residual
    [rhs - A x] of the current [x] after every step. *)

Lemma vsub_vadd (w u v : @vector V) :
  sub_add_law -> vsub w (vadd u v) = vsub (vsub w u) v.
Proof.
  intro L. unfold vsub, vadd. revert u v.
  induction w as [|a w IH]; intros [|b u] [|c v]; cbn; try reflexivity.
  now rewrite L, IH.
Qed.

Lemma pcg_step_residual (n : nat) f :
  sub_add_law -> sized n f -> linear n (f_A f) ->
  f_r f = residual (f_rhs f) (f_A f) (f_x f) ->
  f_r (pcg_step f) = residual (f_rhs (pcg_step f)) (f_A (pcg_step f)) (f_x (pcg_step f)).
Proof.
  intros L [HA HP Hx Hr Hs Hp Hq] Hlin Hinv.
  destruct f as [A0 P0 rhs0 x0 prm0 n0 r0 s0 p0 q0 rho1 rho2 nrm it].
  cbn in HA, HP, Hx, Hr, Hs, Hp, Hq, Hlin. cbn [f_r f_rhs f_A f_x] in Hinv.
  assert (Ls : length (apply P0 r0) = n) by (apply HP; exact Hr).
  unfold pcg_step, residual.
  destruct it as [|it]; cbn -[vadd vsub vscale dot].
  - rewrite (Hlin _ x0 (apply P0 r0) Hx Ls).
    fold (vsub rhs0 (vadd (mv A0 x0)
            (vscale (sdiv (dot r0 (apply P0 r0)) (dot (mv A0 (apply P0 r0)) (apply P0 r0)))
               (mv A0 (apply P0 r0))))).
    rewrite (vsub_vadd _ _ _ L). unfold vsub at 3. fold (residual rhs0 A0 x0).
    rewrite <- Hinv. reflexivity.
  - set (d := vadd (apply P0 r0) (vscale (sdiv (dot r0 (apply P0 r0)) rho1) p0)).
    assert (Ld : length d = n) by (apply vadd_vscale_length; assumption).
    rewrite (Hlin _ x0 d Hx Ld).
    fold (vsub rhs0 (vadd (mv A0 x0) (vscale (sdiv (dot r0 (apply P0 r0)) (dot (mv A0 d) d))
                                         (mv A0 d)))).
    rewrite (vsub_vadd _ _ _ L). unfold vsub at 3. fold (residual rhs0 A0 x0).
    rewrite <- Hinv. reflexivity.
Qed.

Lemma pcg_steps_residual (n j : nat) :
  sub_add_law ->
  forall f, sized n f -> linear n (f_A f) ->
    f_r f = residual (f_rhs f) (f_A f) (f_x f) ->
    f_r (pcg_steps j f) =
      residual (f_rhs (pcg_steps j f)) (f_A (pcg_steps j f)) (f_x (pcg_steps j f)).
Proof.
  intro L. induction j as [|j IH]; intros f Hf Hlin Hinv; cbn [pcg_steps].
  - exact Hinv.
  - apply IH.
    + apply pcg_step_sized. exact Hf.
    + exact Hlin.
    + apply (pcg_step_residual n f L Hf Hlin Hinv).
Qed.

(** At return from a call with a right-hand side of nonzero norm, the [r] of
    the engine is the residual of the returned [x]. *)
Lemma carried_residual_is_true e A P rhs x :
  exact_arithmetic -> sub_add_law ->
  cg_sized e -> square (cg_n e) A -> linear (cg_n e) A -> preserves_size (cg_n e) P ->
  length rhs = cg_n e -> length x = cg_n e ->
  seqb (norm rhs) szero = false ->
  residual rhs A (out_x (solve4 e A P rhs x)) = cg_r (out_engine (solve4 e A P rhs x)).
Proof.
  intros X L He HA Hlin HP Hrhs Hx E.
  pose proof (enter_sized e A P rhs x He HA HP Hrhs Hx) as S0.
  unfold solve4. rewrite (run_nonzero e A P rhs x E).
  cbn [outcome_of fst out_x out_engine leave cg_r].
  set (j := trip_count (maxiter (cg_prm e)) (enter e A P rhs x)).
  destruct (trips_are_pcg_steps (cg_n e) j X (enter e A P rhs x) S0) as [-> _].
  pose proof (pcg_steps_residual (cg_n e) j L (enter e A P rhs x) S0 Hlin eq_refl) as I.
  rewrite I. clear I.
  destruct (trips_are_pcg_steps (cg_n e) j X (enter e A P rhs x) S0) as [<- _].
  destruct (trips_const j (enter e A P rhs x)) as (-> & _ & -> & _).
  reflexivity.
Qed.

(** ** One trip, statement by statement *)

(** What one trip round the loop leaves in memory, in terms of the memory
    before it: no denominator is looked at. *)
Lemma trip_divisions f :
  f_s (next f) = apply (f_P f) (f_r f) /\
  f_rho2 (next f) = f_rho1 f /\
  f_rho1 (next f) = inner_product (f_r f) (f_s (next f)) /\
  (f_iter f <> 0 ->
   f_p (next f) =
     axpby sone (f_s (next f)) (sdiv (f_rho1 (next f)) (f_rho2 (next f))) (f_p f)) /\
  f_x (next f) =
    axpby (sdiv (f_rho1 (next f)) (inner_product (f_q (next f)) (f_p (next f))))
          (f_p (next f)) sone (f_x f) /\
  f_r (next f) =
    axpby (sopp (sdiv (f_rho1 (next f)) (inner_product (f_q (next f)) (f_p (next f)))))
          (f_q (next f)) sone (f_r f).
Proof.
  destruct f as [A0 P0 rhs0 x0 prm0 n0 r0 s0 p0 q0 rho1 rho2 nrm it].
  destruct it as [|it]; cbn; repeat split. intro H. now contradict H.
Qed.

End Facts.

(** ** Calls on concrete systems over [double] *)

Module DoubleFacts.

Import DoubleSystems.
Open Scope float_scope.

(** The scenario of the documentation: identity system, one iteration. *)
Example eye3_scenario :
  solve4 (engine 3 5 1e-10) eye3 identity_precond [1; 2; 3] [0; 0; 0] =
  {| out_engine := {| cg_prm := {| maxiter := 5; tol := 1e-10 |}; cg_n := 3;
                      cg_r := [0; 0; 0]; cg_s := [1; 2; 3];
                      cg_p := [1; 2; 3]; cg_q := [1; 2; 3] |};
     out_x := [1; 2; 3];
     out_result := (1%nat, 0) |}.
Proof. vm_compute. reflexivity. Qed.

(** The default tolerance of a [double] engine is the [double] nearest to
    [1e-8]. *)
Example double_default_params :
  cg_prm (default_engine 3) = {| maxiter := 100; tol := 0x1.5798ee2308c3ap-27 |}.
Proof. reflexivity. Qed.

(** The three facts about zero that [norm_zero_vector] asks for hold of
    [double]. *)
Example double_zero_facts :
  smul szero szero = (szero : float) /\ sadd szero szero = (szero : float) /\
  ssqrt szero = (szero : float).
Proof. repeat split. Qed.

Lemma stopping_rule_witness :
  seqb (norm [1; 2; 3]) szero = false /\
  (sgtb (snd (snd (run (engine 3 5 1e-10) eye3 identity_precond [1; 2; 3] [0; 0; 0])))
        (tol (cg_prm (engine 3 5 1e-10))) = false \/
   fst (snd (run (engine 3 5 1e-10) eye3 identity_precond [1; 2; 3] [0; 0; 0])) =
   maxiter (cg_prm (engine 3 5 1e-10))).
Proof.
  split; [reflexivity|].
  exact (proj1 (proj2 (proj2
    (stopping_rule (engine 3 5 1e-10) eye3 identity_precond [1; 2; 3] [0; 0; 0] eq_refl)))).
Defined.

(** On the singular system the first [alpha] is [1 / 0]: [r] becomes NaN, the
    test [res > tol] fails on it, and the call returns after one of its
    hundred iterations with a residual that is not [<= tol]. *)
Lemma stopping_rule_nan_counterexample :
  seqb (norm [1]) szero = false /\
  out_result (solve4 (default_engine 1) null1 identity_precond [1] [0]) = (1%nat, nan) /\
  maxiter (cg_prm (default_engine 1)) = 100%nat /\
  ~ (sleb (snd (out_result (solve4 (default_engine 1) null1 identity_precond [1] [0])))
          (tol (cg_prm (default_engine 1))) = true \/
     fst (out_result (solve4 (default_engine 1) null1 identity_precond [1] [0])) =
     maxiter (cg_prm (default_engine 1))).
Proof.
  split; [reflexivity|]. split; [vm_compute; reflexivity|]. split; [reflexivity|].
  intros [H|H]; vm_compute in H; discriminate H.
Qed.

Lemma zero_rhs_short_circuit_witness :
  seqb (norm [0; 0; 0]) szero = true /\
  out_x (solve4 (default_engine 3) eye3 identity_precond [0; 0; 0] [5; 6; 7]) = [0; 0; 0] /\
  out_result (solve4 (default_engine 3) eye3 identity_precond [0; 0; 0] [5; 6; 7]) = (0%nat, 0).
Proof.
  split; [reflexivity|].
  pose proof (proj1 (zero_rhs_short_circuit (default_engine 3) eye3 identity_precond
                       [0; 0; 0] [5; 6; 7] eq_refl)) as H.
  rewrite H. split; reflexivity.
Defined.

Lemma maxiter_zero_witness :
  maxiter (cg_prm (engine 1 0 1e-8)) = 0%nat /\
  seqb (norm [2]) szero = false /\
  out_x (solve4 (engine 1 0 1e-8) one1 identity_precond [2] [1]) = [1] /\
  out_result (solve4 (engine 1 0 1e-8) one1 identity_precond [2] [1]) = (0%nat, 0.5).
Proof.
  assert (E : seqb (norm [2]) szero = false) by (vm_compute; reflexivity).
  split; [reflexivity|]. split; [exact E|].
  rewrite (maxiter_zero_returns_initial_residual (engine 1 0 1e-8) one1 identity_precond
             [2] [1] eq_refl E).
  split; vm_compute; reflexivity.
Defined.

(** With [maxiter = 0] and a zero right-hand side the call clears [x] and
    returns [0], while the relative residual of the initial [x] is [1 / 0]. *)
Lemma maxiter_zero_counterexample :
  maxiter (cg_prm (engine 1 0 1e-8)) = 0%nat /\
  out_x (solve4 (engine 1 0 1e-8) one1 identity_precond [0] [1]) = [0] /\
  out_x (solve4 (engine 1 0 1e-8) one1 identity_precond [0] [1]) <> [1] /\
  out_result (solve4 (engine 1 0 1e-8) one1 identity_precond [0] [1]) = (0%nat, 0) /\
  sdiv (norm (residual [0] one1 [1])) (norm [0]) = infinity.
Proof.
  split; [reflexivity|]. split; [reflexivity|]. split; [|split; reflexivity].
  intro H. apply (f_equal (fun v => PrimFloat.eqb (first_of v) 1)) in H.
  vm_compute in H. discriminate H.
Qed.

Lemma converged_result_stable_witness :
  (1 <= 5)%nat /\
  sgtb (snd (out_result (solve4 (with_maxiter 1 (default_engine 3)) eye3 identity_precond
                           [1; 2; 3] [0; 0; 0])))
       (tol (cg_prm (default_engine 3))) = false /\
  out_result (solve4 (with_maxiter 5 (default_engine 3)) eye3 identity_precond
                [1; 2; 3] [0; 0; 0]) =
  out_result (solve4 (with_maxiter 1 (default_engine 3)) eye3 identity_precond
                [1; 2; 3] [0; 0; 0]).
Proof.
  assert (L : (1 <= 5)%nat) by lia.
  assert (C : sgtb (snd (out_result (solve4 (with_maxiter 1 (default_engine 3)) eye3
                                        identity_precond [1; 2; 3] [0; 0; 0])))
                   (tol (cg_prm (default_engine 3))) = false)
    by (vm_compute; reflexivity).
  split; [exact L|]. split; [exact C|].
  exact (proj1 (proj2 (converged_result_stable_in_maxiter (default_engine 3) eye3
                         identity_precond [1; 2; 3] [0; 0; 0] 1 5 L) C)).
Defined.

(** On the system [diag(1, 100)] with right-hand side [(10, 1)] the first
    step takes the residual from [(10, 1)] to [(4.95, -49.5)]: with
    [maxiter = 0] the call returns the relative residual [1], with
    [maxiter = 1] it returns a larger one. *)
Lemma residual_grows_counterexample :
  (0 <= 1)%nat /\
  out_result (solve4 (with_maxiter 0 (default_engine 2)) stiff2 identity_precond
                [10; 1] [0; 0]) = (0%nat, 1) /\
  fst (out_result (solve4 (with_maxiter 1 (default_engine 2)) stiff2 identity_precond
                     [10; 1] [0; 0])) = 1%nat /\
  cg_r (out_engine (solve4 (with_maxiter 1 (default_engine 2)) stiff2 identity_precond
                      [10; 1] [0; 0])) = [4.95; -49.5] /\
  sgtb (snd (out_result (solve4 (with_maxiter 1 (default_engine 2)) stiff2 identity_precond
                           [10; 1] [0; 0])))
       (snd (out_result (solve4 (with_maxiter 0 (default_engine 2)) stiff2 identity_precond
                           [10; 1] [0; 0]))) = true /\
  sleb (snd (out_result (solve4 (with_maxiter 1 (default_engine 2)) stiff2 identity_precond
                           [10; 1] [0; 0])))
       (snd (out_result (solve4 (with_maxiter 0 (default_engine 2)) stiff2 identity_precond
                           [10; 1] [0; 0]))) = false.
Proof.
  split; [lia|]. repeat split; vm_compute; reflexivity.
Qed.

Lemma second_solve_is_idle_witness :
  seqb (norm [4; 9; 16]) szero = false /\
  sgtb (sdiv (norm (residual [4; 9; 16] diag3 (out_x diag3_first))) (norm [4; 9; 16]))
       (tol (cg_prm (default_engine 3))) = false /\
  out_result (solve4 (out_engine diag3_first) diag3 identity_precond [4; 9; 16]
                (out_x diag3_first))
  = (0%nat, sdiv (norm (residual [4; 9; 16] diag3 (out_x diag3_first))) (norm [4; 9; 16])).
Proof.
  assert (E : seqb (norm [4; 9; 16]) szero = false) by (vm_compute; reflexivity).
  assert (C : sgtb (sdiv (norm (residual [4; 9; 16] diag3
                                  (out_x (solve4 (default_engine 3) diag3 identity_precond
                                            [4; 9; 16] [0; 0; 0]))))
                         (norm [4; 9; 16]))
                   (tol (cg_prm (default_engine 3))) = false)
    by (vm_compute; reflexivity).
  split; [exact E|]. split; [exact C|].
  exact (proj1 (second_solve_is_idle (default_engine 3) diag3 identity_precond
                  [4; 9; 16] [0; 0; 0] E C)).
Defined.

(** From the initial guess [2^60] the entry residual [1 - 2^60] rounds to
    [-2^60]; one step brings [x] to [0] and the carried [r] to [0], and the
    call returns the residual [0 <= tol].  The true residual of [x = 0] is
    [1]: the second call makes one iteration and moves [x] to [1].  On the
    diagonal system of the documentation the first call returns a residual
    within the tolerance after three iterations; the second call makes no
    iteration, leaves [x], and returns another residual, the recomputed
    one. *)
Lemma second_solve_counterexample :
  (seqb (norm [1]) szero = false /\
   out_result far_start = (1%nat, 0) /\
   sleb (snd (out_result far_start)) (tol (cg_prm (default_engine 1))) = true /\
   out_x far_start = [0] /\
   out_result (solve4 (out_engine far_start) one1 identity_precond [1] (out_x far_start))
     = (1%nat, 0) /\
   fst (out_result (solve4 (out_engine far_start) one1 identity_precond [1] (out_x far_start)))
     <> 0%nat /\
   out_x (solve4 (out_engine far_start) one1 identity_precond [1] (out_x far_start)) = [1]) /\
  (seqb (norm [4; 9; 16]) szero = false /\
   fst (out_result diag3_first) = 3%nat /\
   sleb (snd (out_result diag3_first)) (tol (cg_prm (default_engine 3))) = true /\
   fst (out_result (solve4 (out_engine diag3_first) diag3 identity_precond [4; 9; 16]
                      (out_x diag3_first))) = 0%nat /\
   out_x (solve4 (out_engine diag3_first) diag3 identity_precond [4; 9; 16]
            (out_x diag3_first)) = out_x diag3_first /\
   seqb (snd (out_result (solve4 (out_engine diag3_first) diag3 identity_precond [4; 9; 16]
                            (out_x diag3_first))))
        (snd (out_result diag3_first)) = false /\
   sgtb (snd (out_result (solve4 (out_engine diag3_first) diag3 identity_precond [4; 9; 16]
                            (out_x diag3_first))))
        (snd (out_result diag3_first)) = true).
Proof.
  split.
  - repeat split; try (vm_compute; reflexivity).
    vm_compute. discriminate.
  - repeat split; vm_compute; reflexivity.
Qed.

End DoubleFacts.

(** C6. The two divisions of the loop are made whatever their denominators
    are.  For every value type and backend and every call with a right-hand
    side of nonzero norm, the memory at return is the entry memory after as
    many trips as iterations are returned, and each trip [j] sets [rho2] to
    the former [rho1], takes the direction [1 s + (rho1 / rho2) p] when
    [j > 0], and sets [x] to [alpha p + 1 x] and [r] to [(- alpha) q + 1 r]
    with [alpha = rho1 / <q, p>]: no denominator is tested.  Calls reach
    them with a zero denominator.  On the 2x2 identity with the quarter turn
    as preconditioner the second trip has [rho2 == 0]: the direction becomes
    [0 / 0] and the call returns [(2, NaN)] with [x] NaN.  On the singular
    1x1 system the first trip has [<q, p> == 0]: [alpha] is [1 / 0] and the
    call returns [(1, NaN)] with [x] infinite. *)
Theorem divisions_are_unguarded :
  (forall (V : Type) (SV : Scalar V) (BV : Backend V)
          (e : @cg V) (A : matrix) (P : @precond V) (rhs x : @vector V),
     seqb (norm rhs) szero = false ->
     fst (run e A P rhs x) =
       trips (fst (out_result (solve4 e A P rhs x))) (enter e A P rhs x) /\
     forall j, j < fst (out_result (solve4 e A P rhs x)) ->
       f_rho2 (trips (S j) (enter e A P rhs x)) = f_rho1 (trips j (enter e A P rhs x)) /\
       (j <> 0 ->
        f_p (trips (S j) (enter e A P rhs x)) =
          axpby sone (f_s (trips (S j) (enter e A P rhs x)))
                (sdiv (f_rho1 (trips (S j) (enter e A P rhs x)))
                      (f_rho2 (trips (S j) (enter e A P rhs x))))
                (f_p (trips j (enter e A P rhs x)))) /\
       f_x (trips (S j) (enter e A P rhs x)) =
         axpby (sdiv (f_rho1 (trips (S j) (enter e A P rhs x)))
                     (inner_product (f_q (trips (S j) (enter e A P rhs x)))
                                    (f_p (trips (S j) (enter e A P rhs x)))))
               (f_p (trips (S j) (enter e A P rhs x))) sone
               (f_x (trips j (enter e A P rhs x))) /\
       f_r (trips (S j) (enter e A P rhs x)) =
         axpby (sopp (sdiv (f_rho1 (trips (S j) (enter e A P rhs x)))
                           (inner_product (f_q (trips (S j) (enter e A P rhs x)))
                                          (f_p (trips (S j) (enter e A P rhs x))))))
               (f_q (trips (S j) (enter e A P rhs x))) sone
               (f_r (trips j (enter e A P rhs x)))) /\
  (seqb (norm [1; 0]%float) szero = false /\
   out_result (solve4 (DoubleSystems.default_engine 2) DoubleSystems.eye2
                 DoubleSystems.quarter_turn [1; 0]%float [0; 0]%float) = (2, nan) /\
   out_x (solve4 (DoubleSystems.default_engine 2) DoubleSystems.eye2
            DoubleSystems.quarter_turn [1; 0]%float [0; 0]%float) = [nan; nan] /\
   seqb (f_rho2 (trips 2 DoubleSystems.turn_entry)) szero = true /\
   f_p (trips 2 DoubleSystems.turn_entry) = [nan; nan]) /\
  (seqb (norm [1]%float) szero = false /\
   out_result (solve4 (DoubleSystems.default_engine 1) DoubleSystems.null1
                 identity_precond [1]%float [0]%float) = (1, nan) /\
   out_x (solve4 (DoubleSystems.default_engine 1) DoubleSystems.null1
            identity_precond [1]%float [0]%float) = [infinity] /\
   seqb (inner_product (f_q (trips 1 DoubleSystems.null_entry))
                       (f_p (trips 1 DoubleSystems.null_entry))) szero = true).
Proof.
  split.
  - intros V SV BV e A P rhs x E. unfold solve4.
    rewrite (run_nonzero e A P rhs x E). cbn [outcome_of out_result fst snd].
    split; [reflexivity|]. intros j _. rewrite trips_snoc.
    destruct (trip_divisions (trips j (enter e A P rhs x))) as (_ & H2 & _ & Hp & Hx & Hr).
    split; [exact H2|]. split; [|split; assumption].
    intro Hj. apply Hp. rewrite trips_iter. cbn. exact Hj.
  - split; repeat split; vm_compute; reflexivity.
Qed.

(** ** The reals: exact arithmetic *)

Module RealFacts.

Import RealSystems.

Lemma real_exact : @exact_arithmetic R real_scalar.
Proof.
  constructor; intros; cbn; ring.
Qed.

Lemma real_total_order : @total_order R real_scalar.
Proof.
  intros a b. cbn. destruct (Rle_dec a b), (Rgt_dec a b); cbn; try reflexivity; lra.
Qed.

Lemma real_sub_add_law : @sub_add_law R real_scalar.
Proof. intros b c d. cbn. ring. Qed.

Lemma fold_left_Rplus (l : list R) : forall acc : R,
  fold_left Rplus l acc = (acc + fold_left Rplus l 0)%R.
Proof.
  induction l as [|a l IH]; intro acc; cbn.
  - ring.
  - rewrite (IH (acc + a)%R), (IH (0 + a)%R). ring.
Qed.

Lemma real_row_linear (a : R) (row : list R) : forall u v : list R,
  length u = length v ->
  fold_left Rplus (map2 Rmult row (map2 Rplus u (map (Rmult a) v))) 0%R =
  (fold_left Rplus (map2 Rmult row u) 0 + a * fold_left Rplus (map2 Rmult row v) 0)%R.
Proof.
  induction row as [|c row IH]; intros [|b u] [|d v] L; cbn in *;
    try discriminate; try ring.
  rewrite (fold_left_Rplus _ (0 + c * (b + a * d))%R).
  rewrite (fold_left_Rplus _ (0 + c * b)%R), (fold_left_Rplus _ (0 + c * d)%R).
  rewrite (IH u v); [ring|lia].
Qed.

(** Dense real matrices are linear maps. *)
Lemma real_dense_linear (n : nat) (A : @matrix R real_dense) :
  @linear R real_scalar real_dense n A.
Proof.
  intros a u v Hu Hv. cbn. unfold dense_mv, vadd, vscale. cbn.
  induction A as [|row A IH]; cbn; [reflexivity|].
  rewrite IH. f_equal. apply real_row_linear. congruence.
Qed.

Lemma rhs1_nonzero : @seqb R real_scalar (@norm R real_scalar rhs1) (@szero R real_scalar) = false.
Proof.
  unfold norm, inner_product, dot, rhs1. cbn.
  replace (0 + 1 * 1)%R with 1%R by ring. rewrite sqrt_1.
  destruct (Req_dec_T 1 0); [lra|reflexivity].
Qed.

Lemma engine1_sized : @cg_sized R engine1.
Proof. constructor; reflexivity. Qed.

Lemma unit1_square : @square R real_dense (cg_n engine1) unit1.
Proof. intros v _. reflexivity. Qed.

Lemma identity_preserves_size (n : nat) : @preserves_size R n identity_precond.
Proof. intros v L. exact L. Qed.

(** Over the reals the engine returns from a call on a dense system with the
    true residual of the returned [x] in [r]. *)
Lemma real_carried_residual (e : @cg R) (A : @matrix R real_dense) (P : @precond R)
    (rhs x : list R) :
  @cg_sized R e -> @square R real_dense (cg_n e) A -> @preserves_size R (cg_n e) P ->
  length rhs = cg_n e -> length x = cg_n e ->
  @seqb R real_scalar (@norm R real_scalar rhs) (@szero R real_scalar) = false ->
  @residual R real_scalar real_dense rhs A
    (out_x (@solve4 R real_scalar real_dense e A P rhs x)) =
  cg_r (out_engine (@solve4 R real_scalar real_dense e A P rhs x)).
Proof.
  intros He HA HP Hrhs Hx E.
  apply (@carried_residual_is_true R real_scalar real_dense e A P rhs x
           real_exact real_sub_add_law He HA (real_dense_linear (cg_n e) A) HP Hrhs Hx E).
Qed.

Lemma loop_trip_is_pcg_step_witness :
  @exact_arithmetic R real_scalar /\
  @seqb R real_scalar (@norm R real_scalar rhs1) (@szero R real_scalar) = false /\
  fst (@run R real_scalar real_dense engine1 unit1 identity_precond rhs1 x1) =
  @pcg_steps R real_scalar real_dense
    (fst (snd (@run R real_scalar real_dense engine1 unit1 identity_precond rhs1 x1)))
    (@enter R real_scalar real_dense engine1 unit1 identity_precond rhs1 x1).
Proof.
  split; [exact real_exact|]. split; [exact rhs1_nonzero|].
  exact (proj2 (@loop_trip_is_pcg_step R real_scalar real_dense
                  engine1 unit1 identity_precond rhs1 x1
                  real_exact engine1_sized unit1_square
                  (identity_preserves_size (cg_n engine1))
                  eq_refl eq_refl rhs1_nonzero)).
Defined.

End RealFacts.

(** * Further properties of the solver *)

Section Reuse.

Context {V : Type} {SV : Scalar V} {BV : Backend V}.

Implicit Types (f : @frame V BV) (e : @cg V) (A : matrix) (P : @precond V)
  (rhs x : @vector V).

(** ** When no iteration is made *)

(** X1. A call returns zero iterations exactly when the norm of the
    right-hand side compares equal to zero, or the relative residual of the
    initial [x] fails the test [res > tol], or [maxiter] is [0]; in the last
    two cases, with a right-hand side of nonzero norm, [x] is returned as it
    was given and the returned residual is that of the initial [x]. *)
Theorem zero_iterations_iff e A P rhs x :
  (fst (out_result (solve4 e A P rhs x)) = 0 <->
   seqb (norm rhs) szero = true \/
   sgtb (sdiv (norm (residual rhs A x)) (norm rhs)) (tol (cg_prm e)) = false \/
   maxiter (cg_prm e) = 0) /\
  (seqb (norm rhs) szero = false ->
   fst (out_result (solve4 e A P rhs x)) = 0 ->
   out_x (solve4 e A P rhs x) = x /\
   snd (out_result (solve4 e A P rhs x)) = sdiv (norm (residual rhs A x)) (norm rhs)).
Proof.
  unfold solve4. destruct (seqb (norm rhs) szero) eqn:E.
  - rewrite (run_zero e A P rhs x E). cbn. split; [|discriminate].
    split; [intros _; now left|reflexivity].
  - rewrite (run_nonzero e A P rhs x E).
    cbn [outcome_of out_result out_x fst snd].
    assert (C : continues (enter e A P rhs x) =
                sgtb (sdiv (norm (residual rhs A x)) (norm rhs)) (tol (cg_prm e))
                && (0 <? maxiter (cg_prm e))) by reflexivity.
    split.
    + split.
      * intro H. right.
        destruct (maxiter (cg_prm e)) as [|m] eqn:M; [now right|left].
        cbn [trip_count] in H. rewrite C in H. cbn in H.
        destruct (sgtb _ _); [discriminate H|reflexivity].
      * intros [H|[H|H]]; [discriminate H| |].
        -- destruct (maxiter (cg_prm e)); cbn [trip_count]; rewrite C, H; reflexivity.
        -- rewrite H. cbn [trip_count]. destruct (continues _); reflexivity.
    + intros _ H. rewrite H. cbn [trips]. split; reflexivity.
Qed.

(** ** Reusing an engine *)

Lemma enter_with_scratch e A P rhs x (r' s' p' : @vector V) :
  enter (with_scratch r' s' p' e) A P rhs x =
  set_p p' (set_s s' (enter e A P rhs x)).
Proof. reflexivity. Qed.

Lemma next_forgets_s_p f (s' p' : @vector V) :
  f_iter f = 0 -> next (set_p p' (set_s s' f)) = next f.
Proof.
  destruct f as [A0 P0 rhs0 x0 prm0 n0 r0 s0 p0 q0 rho1 rho2 nrm it].
  cbn. intros ->. reflexivity.
Qed.

Lemma trip_count_forgets_s_p (s' p' : @vector V) k f :
  f_iter f = 0 ->
  trip_count k (set_p p' (set_s s' f)) = trip_count k f.
Proof.
  intro H. destruct k as [|k]; cbn [trip_count].
  - reflexivity.
  - change (continues (set_p p' (set_s s' f))) with (continues f).
    destruct (continues f); [|reflexivity].
    now rewrite (next_forgets_s_p f s' p' H).
Qed.

(** X2. The scratch vectors [r], [s] and [p] carry nothing from one call to
    the next: whatever an engine holds in them on entry, the call returns the
    same tuple and the same [x], and, once an iteration has been made, leaves
    the engine in the same state. *)
Theorem scratch_r_s_p_are_dead_on_entry e A P rhs x (r' s' p' : @vector V) :
  out_result (solve4 (with_scratch r' s' p' e) A P rhs x) = out_result (solve4 e A P rhs x) /\
  out_x (solve4 (with_scratch r' s' p' e) A P rhs x) = out_x (solve4 e A P rhs x) /\
  (fst (out_result (solve4 e A P rhs x)) <> 0 ->
   out_engine (solve4 (with_scratch r' s' p' e) A P rhs x) = out_engine (solve4 e A P rhs x)).
Proof.
  unfold solve4. destruct (seqb (norm rhs) szero) eqn:E.
  - rewrite !(run_zero _ A P rhs x E). cbn. repeat split. intro H. now contradict H.
  - rewrite (run_nonzero (with_scratch r' s' p' e) A P rhs x E).
    rewrite (run_nonzero e A P rhs x E).
    rewrite enter_with_scratch. cbn [with_scratch cg_prm].
    rewrite (trip_count_forgets_s_p s' p' _ (enter e A P rhs x) eq_refl).
    cbn [outcome_of out_result out_x out_engine fst snd].
    destruct (trip_count (maxiter (cg_prm e)) (enter e A P rhs x)) as [|j].
    + cbn [trips]. repeat split. intro H. now contradict H.
    + cbn [trips]. rewrite (next_forgets_s_p (enter e A P rhs x) s' p' eq_refl).
      repeat split.
Qed.

(** ** Sizes *)

Lemma axpby_length (a b : V) (u v : @vector V) :
  length (axpby a u b v) = Nat.min (length u) (length v).
Proof. apply map2_length. Qed.

Lemma spmv_length (a b : V) A (u v : @vector V) :
  length (spmv a A u b v) = Nat.min (length (mv A u)) (length v).
Proof. apply map2_length. Qed.

Lemma next_sized (n : nat) f : sized n f -> sized n (next f).
Proof.
  intros [HA HP Hx Hr Hs Hp Hq].
  destruct f as [A0 P0 rhs0 x0 prm0 n0 r0 s0 p0 q0 rho1 rho2 nrm it].
  cbn in HA, HP, Hx, Hr, Hs, Hp, Hq.
  assert (Ls : length (apply P0 r0) = n) by (apply HP; exact Hr).
  unfold next, incr, body, st_update, alpha_of, st_spmv, st_dir, st_rho, st_precond, copy.
  destruct it as [|it]; cbn -[axpby spmv inner_product].
  - assert (Lq : length (spmv sone A0 (apply P0 r0) szero q0) = n).
    { rewrite spmv_length, (HA _ Ls), Hq. lia. }
    constructor; cbn -[axpby spmv inner_product]; try assumption;
      rewrite axpby_length, ?Lq, ?Ls, ?Hx, ?Hr; lia.
  - set (d := axpby sone (apply P0 r0) (sdiv (inner_product r0 (apply P0 r0)) rho1) p0).
    assert (Ld : length d = n) by (unfold d; rewrite axpby_length, Ls, Hp; lia).
    assert (Lq : length (spmv sone A0 d szero q0) = n).
    { rewrite spmv_length, (HA _ Ld), Hq. lia. }
    constructor; cbn -[axpby spmv inner_product]; try assumption;
      rewrite axpby_length, ?Lq, ?Ld, ?Hx, ?Hr; lia.
Qed.

Lemma trips_sized (n j : nat) : forall f, sized n f -> sized n (trips j f).
Proof.
  induction j as [|j IH]; intros f Hf; cbn [trips]; [exact Hf|].
  apply IH, next_sized, Hf.
Qed.

(** X4. A call on a system of the size of the engine keeps all sizes: at
    return the four scratch vectors and [x] have the size [n] the engine was
    built for, and [n] is unchanged, so the engine is fit for the next
    call. *)
Theorem sizes_are_kept e A P rhs x :
  cg_sized e -> square (cg_n e) A -> preserves_size (cg_n e) P ->
  length rhs = cg_n e -> length x = cg_n e ->
  cg_sized (out_engine (solve4 e A P rhs x)) /\
  cg_n (out_engine (solve4 e A P rhs x)) = cg_n e /\
  length (out_x (solve4 e A P rhs x)) = cg_n e.
Proof.
  intros He HA HP Hrhs Hx.
  pose proof (enter_sized e A P rhs x He HA HP Hrhs Hx) as S0.
  unfold solve4. destruct (seqb (norm rhs) szero) eqn:E.
  - rewrite (run_zero e A P rhs x E). destruct S0 as [_ _ _ Sr Ss Sp Sq].
    cbn in Sr, Ss, Sp, Sq |- *. split; [constructor; cbn; assumption|].
    split; [reflexivity|]. unfold clear. now rewrite length_map.
  - rewrite (run_nonzero e A P rhs x E).
    set (j := trip_count (maxiter (cg_prm e)) (enter e A P rhs x)).
    destruct (trips_sized (cg_n e) j _ S0) as [_ _ Sx Sr Ss Sp Sq].
    destruct (trips_const j (enter e A P rhs x)) as (_ & _ & _ & _ & Hn & _).
    cbn [enter f_n] in Hn.
    cbn [outcome_of out_engine out_x leave fst cg_n].
    split; [constructor; cbn [leave cg_r cg_s cg_p cg_q cg_n]; rewrite Hn; assumption|].
    split; [exact Hn|exact Sx].
Qed.

(** ** Exact arithmetic *)

(** X3. In exact arithmetic and for a system of the size of the engine, a
    call takes nothing from the scratch vectors: two engines with the same
    parameters and size, whatever their vectors [r], [s], [p], [q] of that
    size hold, return the same tuple and the same [x]. *)
Theorem engine_state_is_dead_on_entry e A P rhs x (r' s' p' q' : @vector V) :
  exact_arithmetic ->
  cg_sized e -> square (cg_n e) A -> preserves_size (cg_n e) P ->
  length rhs = cg_n e -> length x = cg_n e ->
  length r' = cg_n e -> length s' = cg_n e -> length p' = cg_n e -> length q' = cg_n e ->
  out_result (solve4 {| cg_prm := cg_prm e; cg_n := cg_n e;
                        cg_r := r'; cg_s := s'; cg_p := p'; cg_q := q' |} A P rhs x) =
    out_result (solve4 e A P rhs x) /\
  out_x (solve4 {| cg_prm := cg_prm e; cg_n := cg_n e;
                   cg_r := r'; cg_s := s'; cg_p := p'; cg_q := q' |} A P rhs x) =
    out_x (solve4 e A P rhs x).
Proof.
  intros X He HA HP Hrhs Hx Lr Ls Lp Lq.
  set (e' := {| cg_prm := cg_prm e; cg_n := cg_n e;
                cg_r := r'; cg_s := s'; cg_p := p'; cg_q := q' |}).
  assert (He' : cg_sized e') by (constructor; assumption).
  pose proof (enter_sized e A P rhs x He HA HP Hrhs Hx) as S0.
  pose proof (enter_sized e' A P rhs x He' HA HP Hrhs Hx) as S0'.
  cbn [e' cg_n] in S0'. fold e' in S0'.
  assert (N : next (enter e' A P rhs x) = next (enter e A P rhs x)).
  { rewrite (next_is_pcg_step X (cg_n e) _ S0), (next_is_pcg_step X (cg_n e) _ S0').
    reflexivity. }
  assert (C : forall k, trip_count k (enter e' A P rhs x) = trip_count k (enter e A P rhs x)).
  { intros [|k]; cbn [trip_count]; [reflexivity|].
    change (continues (enter e' A P rhs x)) with (continues (enter e A P rhs x)).
    destruct (continues _); [|reflexivity]. now rewrite N. }
  unfold solve4. destruct (seqb (norm rhs) szero) eqn:E.
  - rewrite !(run_zero _ A P rhs x E). split; reflexivity.
  - rewrite (run_nonzero e' A P rhs x E), (run_nonzero e A P rhs x E).
    change (cg_prm e') with (cg_prm e). rewrite C.
    cbn [outcome_of out_result out_x fst snd].
    destruct (trip_count (maxiter (cg_prm e)) (enter e A P rhs x)) as [|j].
    + cbn [trips]. split; reflexivity.
    + cbn [trips]. rewrite N. split; reflexivity.
Qed.

(** X5. In exact arithmetic, for a linear [A] and a right-hand side of
    nonzero norm, the residual a call returns is the true relative residual of
    the [x] it returns: the norm of [rhs - A x] over the norm of [rhs]. *)
Theorem returned_residual_is_true e A P rhs x :
  exact_arithmetic -> sub_add_law ->
  cg_sized e -> square (cg_n e) A -> linear (cg_n e) A -> preserves_size (cg_n e) P ->
  length rhs = cg_n e -> length x = cg_n e ->
  seqb (norm rhs) szero = false ->
  snd (out_result (solve4 e A P rhs x)) =
  sdiv (norm (residual rhs A (out_x (solve4 e A P rhs x)))) (norm rhs).
Proof.
  intros X L He HA Hlin HP Hrhs Hx E.
  rewrite (carried_residual_is_true e A P rhs x X L He HA Hlin HP Hrhs Hx E).
  unfold solve4. rewrite (run_nonzero e A P rhs x E).
  cbn [outcome_of out_result out_engine leave cg_r fst snd]. unfold rel_res.
  destruct (trips_const (trip_count (maxiter (cg_prm e)) (enter e A P rhs x))
                        (enter e A P rhs x)) as (_ & _ & _ & _ & _ & ->).
  reflexivity.
Qed.

(** ** Changing the tolerance *)

Lemma enter_with_tol (t : V) e A P rhs x :
  enter (with_tol t e) A P rhs x =
  set_prm {| maxiter := maxiter (cg_prm e); tol := t |} (enter e A P rhs x).
Proof. reflexivity. Qed.

Lemma trip_count_tol (t1 t2 : V) (m : nat) :
  (forall a : V, sgtb a t2 = true -> sgtb a t1 = true) ->
  forall k f,
    trip_count k (set_prm {| maxiter := m; tol := t2 |} f) <=
    trip_count k (set_prm {| maxiter := m; tol := t1 |} f).
Proof.
  intros T. induction k as [|k IH]; intro f; cbn [trip_count].
  - destruct (continues _), (continues _); lia.
  - rewrite !continues_set_prm.
    destruct (sgtb (rel_res f) t2) eqn:E2; cbn [andb]; [|lia].
    rewrite (T _ E2). cbn [andb].
    destruct (f_iter f <? m); [|lia].
    rewrite !next_set_prm. apply le_n_S, IH.
Qed.

(** X6. A looser tolerance never costs iterations: if every residual that
    fails to meet [t2] also fails to meet [t1] (as when [t1 <= t2] in an
    ordered value type), the call with tolerance [t2] returns at most as many
    iterations as the call with tolerance [t1]. *)
Theorem looser_tolerance_fewer_iterations e A P rhs x (t1 t2 : V) :
  (forall a : V, sgtb a t2 = true -> sgtb a t1 = true) ->
  fst (out_result (solve4 (with_tol t2 e) A P rhs x)) <=
  fst (out_result (solve4 (with_tol t1 e) A P rhs x)).
Proof.
  intro T. unfold solve4. destruct (seqb (norm rhs) szero) eqn:E.
  - rewrite !(run_zero _ A P rhs x E). cbn. lia.
  - rewrite (run_nonzero (with_tol t1 e) A P rhs x E).
    rewrite (run_nonzero (with_tol t2 e) A P rhs x E).
    rewrite !enter_with_tol. cbn [with_tol cg_prm maxiter outcome_of out_result fst snd].
    apply trip_count_tol. exact T.
Qed.

End Reuse.

(** * Properties of the driver's pattern mask *)

Module DriverFacts.

Import Driver.
Import String.StringSyntax Ascii.AsciiSyntax.

(** ** Stores *)

Lemma store_length {X : Type} (v : X) (l : list X) : forall i,
  length (store i v l) = length l.
Proof.
  induction l as [|a l IH]; intros [|i]; cbn; try reflexivity.
  now rewrite IH.
Qed.

Lemma store_Forall {X : Type} (Q : X -> Prop) (v : X) (l : list X) :
  Q v -> Forall Q l -> forall i, Forall Q (store i v l).
Proof.
  intros Hv H. induction H as [|a l Ha Hl IH]; intros [|i]; cbn; constructor;
    try assumption. apply IH.
Qed.

Lemma store_map_seq {X : Type} (g : nat -> X) (v : X) (n : nat) : forall s k,
  store k v (map g (seq s n)) =
  map (fun j => if j =? s + k then v else g j) (seq s n).
Proof.
  induction n as [|n IH]; intros s k; [destruct k; reflexivity|].
  destruct k as [|k]; cbn [seq map store].
  - replace (s =? s + 0) with true by (symmetry; apply Nat.eqb_eq; lia).
    f_equal. apply map_ext_in. intros j Hj. apply in_seq in Hj.
    replace (j =? s + 0) with false by (symmetry; apply Nat.eqb_neq; lia).
    reflexivity.
  - replace (s =? s + S k) with false by (symmetry; apply Nat.eqb_neq; lia).
    f_equal. rewrite IH. apply map_ext. intro j.
    replace (S s + k) with (s + S k) by lia. reflexivity.
Qed.

Lemma repeat_map_seq {X : Type} (c : X) (n : nat) : forall s,
  repeat c n = map (fun _ => c) (seq s n).
Proof.
  induction n as [|n IH]; intro s; cbn; [reflexivity|]. now rewrite <- IH.
Qed.

(** ** The marking loop *)

Lemma mark_done (fuel rows : nat) (stride i : Z) (pm : list Byte.byte) :
  (Z.of_nat rows <= i)%Z -> mark fuel rows stride i pm = Some pm.
Proof.
  intro H. destruct fuel; cbn [mark];
    (replace (i <? Z.of_nat rows)%Z with false by (symmetry; apply Z.ltb_ge; lia));
    reflexivity.
Qed.

(** With a zero stride the loop stays where it is. *)
Lemma mark_zero_stride (rows : nat) (i : Z) :
  (0 <= i < Z.of_nat rows)%Z -> (i < size_max)%Z ->
  forall fuel pm, mark fuel rows 0 i pm = None.
Proof.
  intros Hi Hm. induction fuel as [|fuel IH]; intro pm; cbn [mark];
    (replace (i <? Z.of_nat rows)%Z with true by (symmetry; apply Z.ltb_lt; lia));
    [reflexivity|].
  replace ((i + 0) mod size_max)%Z with i; [apply IH|].
  rewrite Z.add_0_r, Z.mod_small; lia.
Qed.

Lemma mark_keeps_shape (rows : nat) (stride : Z) : forall fuel i pm pm',
  mark fuel rows stride i pm = Some pm' ->
  length pm' = length pm /\ (Forall is_bit pm -> Forall is_bit pm').
Proof.
  induction fuel as [|fuel IH]; intros i pm pm'; cbn [mark];
    destruct (i <? Z.of_nat rows)%Z; try discriminate.
  - intros [= <-]. split; [reflexivity|trivial].
  - intro H. apply IH in H as [L F]. rewrite store_length in L. split; [exact L|].
    intro B. apply F. apply store_Forall; [right; reflexivity|exact B].
  - intros [= <-]. split; [reflexivity|trivial].
Qed.

Lemma marked_below_start (rows : nat) (a b : Z) :
  repeat Byte.x00 rows = marked_below rows a b a.
Proof.
  unfold marked_below. rewrite (repeat_map_seq Byte.x00 rows 0).
  apply map_ext. intro j.
  destruct (a <=? Z.of_nat j)%Z eqn:E1; [|reflexivity].
  replace (Z.of_nat j <? a)%Z with false; [reflexivity|].
  symmetry. apply Z.ltb_ge. apply Z.leb_le in E1. exact E1.
Qed.

Lemma marked_below_end (rows : nat) (a b i : Z) :
  (Z.of_nat rows <= i)%Z -> marked_below rows a b i = stride_mask rows a b.
Proof.
  intro H. unfold marked_below, stride_mask. apply map_ext_in. intros j Hj.
  apply in_seq in Hj.
  replace (Z.of_nat j <? i)%Z with true by (symmetry; apply Z.ltb_lt; lia).
  now rewrite andb_true_r.
Qed.

Lemma marked_below_step (rows : nat) (a b i : Z) :
  (0 < b)%Z -> (0 <= a <= i)%Z -> ((i - a) mod b = 0)%Z ->
  store (Z.to_nat i) Byte.x01 (marked_below rows a b i) = marked_below rows a b (i + b).
Proof.
  intros Hb Ha Hm. unfold marked_below. rewrite store_map_seq.
  apply map_ext_in. intros j Hj. cbn [Nat.add].
  destruct (Nat.eqb_spec j (Z.to_nat i)) as [->|N].
  - rewrite Z2Nat.id by lia.
    replace (a <=? i)%Z with true by (symmetry; apply Z.leb_le; lia).
    replace (i <? i + b)%Z with true by (symmetry; apply Z.ltb_lt; lia).
    rewrite Hm. reflexivity.
  - destruct (a <=? Z.of_nat j)%Z eqn:E1; [|reflexivity]. cbn [andb].
    apply Z.leb_le in E1.
    destruct (Z.ltb_spec (Z.of_nat j) i) as [L|L].
    + replace (Z.of_nat j <? i + b)%Z with true by (symmetry; apply Z.ltb_lt; lia).
      reflexivity.
    + cbn [andb].
      destruct (Z.ltb_spec (Z.of_nat j) (i + b)) as [L2|L2]; [|reflexivity].
      cbn [andb].
      destruct (Z.eqb_spec ((Z.of_nat j - a) mod b) 0) as [M|M]; [|reflexivity].
      exfalso.
      assert (Nj : Z.of_nat j <> i) by (intro Q; apply N; rewrite <- Q; now rewrite Nat2Z.id).
      apply Z.mod_divide in M; [|lia]. apply Z.mod_divide in Hm; [|lia].
      destruct M as [c1 M], Hm as [c2 Hm].
      assert (D : (Z.of_nat j - i = (c1 - c2) * b)%Z) by lia.
      assert (B : (0 < (c1 - c2) * b < b)%Z) by lia.
      destruct (Z_le_gt_dec (c1 - c2) 0) as [K|K]; nia.
Qed.

Lemma mark_forward (rows : nat) (a b : Z) :
  (0 < b)%Z -> (0 <= a)%Z -> (Z.of_nat rows + b <= size_max)%Z ->
  forall fuel i,
    (a <= i)%Z -> ((i - a) mod b = 0)%Z ->
    (Z.of_nat rows - i <= Z.of_nat fuel)%Z ->
    mark fuel rows b i (marked_below rows a b i) = Some (stride_mask rows a b).
Proof.
  intros Hb Ha Hr. induction fuel as [|fuel IH]; intros i Hi Hm Hf; cbn [mark].
  - replace (i <? Z.of_nat rows)%Z with false by (symmetry; apply Z.ltb_ge; lia).
    rewrite marked_below_end by lia. reflexivity.
  - destruct (Z.ltb_spec i (Z.of_nat rows)) as [L|L].
    + rewrite marked_below_step by (try assumption; lia).
      rewrite Z.mod_small by lia.
      apply IH; [lia| |lia].
      replace (i + b - a)%Z with (i - a + 1 * b)%Z by lia.
      rewrite Z.mod_add by lia. exact Hm.
    + rewrite marked_below_end by lia. reflexivity.
Qed.

(** ** [atoi] *)

Lemma atoi_range (s : String.string) (v : Z) :
  atoi s = Some v -> (int_min <= v <= int_max)%Z.
Proof.
  unfold atoi. destruct (_ && _)%bool eqn:E; [|discriminate].
  intros [= <-]. apply andb_prop in E as [E1 E2].
  apply Z.leb_le in E1, E2. lia.
Qed.

Lemma digits_from_stop (rest : String.string) (v : Z) :
  no_leading_digit rest -> digits_from v rest = v.
Proof.
  destruct rest as [|c rest]; cbn; [reflexivity|]. now intros ->.
Qed.

Lemma digits_from_uint (rest : String.string) :
  no_leading_digit rest ->
  forall (d : Decimal.uint) (acc : nat),
    digits_from (Z.of_nat acc)
      (String.append (DecimalString.NilEmpty.string_of_uint d) rest) =
    Z.of_nat (Nat.of_uint_acc d acc).
Proof.
  intro H. induction d as [|d IH|d IH|d IH|d IH|d IH|d IH|d IH|d IH|d IH|d IH];
    intro acc; cbn [DecimalString.NilEmpty.string_of_uint String.append
                    digits_from Nat.of_uint_acc].
  - apply digits_from_stop, H.
  - change (digit_of "0") with (Some 0%Z). rewrite <- IH. f_equal.
    rewrite Nat.tail_mul_spec. lia.
  - change (digit_of "1") with (Some 1%Z). rewrite <- IH. f_equal.
    rewrite Nat.tail_mul_spec. lia.
  - change (digit_of "2") with (Some 2%Z). rewrite <- IH. f_equal.
    rewrite Nat.tail_mul_spec. lia.
  - change (digit_of "3") with (Some 3%Z). rewrite <- IH. f_equal.
    rewrite Nat.tail_mul_spec. lia.
  - change (digit_of "4") with (Some 4%Z). rewrite <- IH. f_equal.
    rewrite Nat.tail_mul_spec. lia.
  - change (digit_of "5") with (Some 5%Z). rewrite <- IH. f_equal.
    rewrite Nat.tail_mul_spec. lia.
  - change (digit_of "6") with (Some 6%Z). rewrite <- IH. f_equal.
    rewrite Nat.tail_mul_spec. lia.
  - change (digit_of "7") with (Some 7%Z). rewrite <- IH. f_equal.
    rewrite Nat.tail_mul_spec. lia.
  - change (digit_of "8") with (Some 8%Z). rewrite <- IH. f_equal.
    rewrite Nat.tail_mul_spec. lia.
  - change (digit_of "9") with (Some 9%Z). rewrite <- IH. f_equal.
    rewrite Nat.tail_mul_spec. lia.
Qed.

Lemma digits_from_decimal (rest : String.string) (d : Decimal.uint) :
  no_leading_digit rest ->
  digits_from 0 (String.append (DecimalString.NilZero.string_of_uint d) rest) =
  Z.of_nat (Nat.of_uint d).
Proof.
  intro H. unfold Nat.of_uint.
  destruct d; try (apply (digits_from_uint rest H _ 0)).
  cbn. change (digit_of "0") with (Some 0%Z). cbn. apply digits_from_stop, H.
Qed.

Lemma strtol10_decimal (rest : String.string) (d : Decimal.uint) :
  strtol10 (String.append (DecimalString.NilZero.string_of_uint d) rest) =
  digits_from 0 (String.append (DecimalString.NilZero.string_of_uint d) rest).
Proof.
  destruct d; reflexivity.
Qed.

(** X7. [atoi] reads back what decimal printing writes: for a natural number
    [n] that an [int] holds, printed in decimal and followed by anything that
    does not start with a digit, [atoi] returns [n], and [- n] when a minus
    sign precedes. *)
Theorem atoi_reads_decimal (n : nat) (rest : String.string) :
  no_leading_digit rest -> (Z.of_nat n <= int_max)%Z ->
  atoi (String.append (DecimalString.NilZero.string_of_uint (Nat.to_uint n)) rest)
    = Some (Z.of_nat n) /\
  atoi (String.String "-"
          (String.append (DecimalString.NilZero.string_of_uint (Nat.to_uint n)) rest))
    = Some (- Z.of_nat n)%Z.
Proof.
  intros H Hn.
  assert (D : digits_from 0
                (String.append (DecimalString.NilZero.string_of_uint (Nat.to_uint n)) rest)
              = Z.of_nat n).
  { rewrite (digits_from_decimal rest _ H), DecimalNat.Unsigned.of_to. reflexivity. }
  unfold int_max in Hn. split; unfold atoi.
  - rewrite strtol10_decimal, D.
    replace ((int_min <=? Z.of_nat n) && (Z.of_nat n <=? int_max))%Z with true; [reflexivity|].
    symmetry. apply andb_true_intro. unfold int_min, int_max.
    split; [apply Z.leb_le|apply Z.leb_le]; lia.
  - change (strtol10 (String.String "-"
              (String.append (DecimalString.NilZero.string_of_uint (Nat.to_uint n)) rest)))
      with (- digits_from 0
              (String.append (DecimalString.NilZero.string_of_uint (Nat.to_uint n)) rest))%Z.
    rewrite D.
    replace ((int_min <=? - Z.of_nat n) && (- Z.of_nat n <=? int_max))%Z with true;
      [reflexivity|].
    symmetry. apply andb_true_intro. unfold int_min, int_max.
    split; [apply Z.leb_le|apply Z.leb_le]; lia.
Qed.

(** ** The pattern branch *)

Lemma stride_mask_nth (rows : nat) (a b : Z) (j : nat) :
  j < rows ->
  nth j (stride_mask rows a b) Byte.x00 =
  if ((a <=? Z.of_nat j) && ((Z.of_nat j - a) mod b =? 0))%Z then Byte.x01 else Byte.x00.
Proof.
  intro H. unfold stride_mask.
  set (g := fun j0 : nat =>
              if ((a <=? Z.of_nat j0) && ((Z.of_nat j0 - a) mod b =? 0))%Z
              then Byte.x01 else Byte.x00).
  rewrite (nth_indep _ Byte.x00 (g 0)) by (now rewrite length_map, length_seq).
  rewrite map_nth, seq_nth by exact H. reflexivity.
Qed.

(** X8. A pattern with start [a >= 0] and stride [b > 0], on fewer than
    [2^63] rows, gives the mask of the help text: the loop ends within [rows]
    trips, the mask has [rows] entries, and entry [j] is [1] exactly when
    [j = a + i b] for some [i >= 0], and [0] otherwise. *)
Theorem pattern_marks_every_stride (fuel rows : nat) (pm_file s1 s3 : String.string)
    (a b : Z) :
  substr 1 pm_file = Some s1 -> atoi s1 = Some a ->
  substr 3 pm_file = Some s3 -> atoi s3 = Some b ->
  (0 <= a)%Z -> (0 < b)%Z -> (Z.of_nat rows < 2 ^ 63)%Z -> rows <= fuel ->
  pattern_mask fuel rows pm_file = Mask (stride_mask rows a b) /\
  length (stride_mask rows a b) = rows /\
  (forall j, j < rows ->
     (nth j (stride_mask rows a b) Byte.x00 = Byte.x01 <->
      exists i : Z, (0 <= i)%Z /\ Z.of_nat j = (a + i * b)%Z) /\
     (nth j (stride_mask rows a b) Byte.x00 = Byte.x01 \/
      nth j (stride_mask rows a b) Byte.x00 = Byte.x00)).
Proof.
  intros H1 Ha H3 Hb Pa Pb Hr Hf.
  pose proof (atoi_range _ _ Ha) as Ra. pose proof (atoi_range _ _ Hb) as Rb.
  unfold int_min, int_max in Ra, Rb.
  split; [|split].
  - unfold pattern_mask. rewrite H1, Ha, H3, Hb.
    unfold to_size_t, size_max. rewrite !Z.mod_small by lia.
    rewrite (marked_below_start rows a b).
    rewrite (mark_forward rows a b Pb Pa); try (unfold size_max; lia).
    + reflexivity.
    + now rewrite Z.sub_diag, Z.mod_0_l by lia.
  - unfold stride_mask. now rewrite length_map, length_seq.
  - intros j Hj. rewrite (stride_mask_nth rows a b j Hj).
    destruct (Z.leb_spec a (Z.of_nat j)) as [L|L]; cbn [andb].
    + destruct (Z.eqb_spec ((Z.of_nat j - a) mod b) 0) as [M|M].
      * split; [|now left]. split; [intros _|reflexivity].
        apply Z.mod_divide in M; [|lia]. destruct M as [c M].
        exists c. split; [nia|lia].
      * split; [|now right]. split; [discriminate|].
        intros [i [Hi E]]. exfalso. apply M.
        replace (Z.of_nat j - a)%Z with (i * b)%Z by lia. apply Z.mod_mul. lia.
    + split; [|now right]. split; [discriminate|].
      intros [i [Hi E]]. nia.
Qed.

(** X9. A pattern whose stride reads as [0] and whose start [a] is a row
    ([0 <= a < rows]) never leaves the marking loop: whatever the number of
    trips allowed, the loop is still running. *)
Theorem zero_stride_never_ends (rows : nat) (pm_file s1 s3 : String.string) (a : Z) :
  substr 1 pm_file = Some s1 -> atoi s1 = Some a ->
  substr 3 pm_file = Some s3 -> atoi s3 = Some 0%Z ->
  (0 <= a < Z.of_nat rows)%Z ->
  forall fuel, pattern_mask fuel rows pm_file = Still_running.
Proof.
  intros H1 Ha H3 Hb Pa fuel.
  pose proof (atoi_range _ _ Ha) as Ra. unfold int_min, int_max in Ra.
  unfold pattern_mask. rewrite H1, Ha, H3, Hb.
  unfold to_size_t. rewrite Z.mod_0_l by (unfold size_max; lia).
  rewrite (Z.mod_small a) by (unfold size_max; lia).
  rewrite mark_zero_stride; [reflexivity|exact Pa|unfold size_max; lia].
Qed.

Lemma digit_char_value (d : nat) :
  d < 10 -> digit_of (digit_char d) = Some (Z.of_nat d).
Proof.
  intro H. do 10 (destruct d as [|d]; [reflexivity|]). lia.
Qed.

Lemma digit_char_plain (d : nat) :
  d < 10 ->
  isspace (digit_char d) = false /\
  Ascii.eqb (digit_char d) "-" = false /\ Ascii.eqb (digit_char d) "+" = false.
Proof.
  intro H. do 10 (destruct d as [|d]; [repeat split|]). lia.
Qed.

Lemma atoi_two_digits (d1 d2 : nat) (rest : String.string) :
  d1 < 10 -> d2 < 10 ->
  atoi (String.String (digit_char d1) (String.String (digit_char d2)
          (String.String ":" rest))) = Some (Z.of_nat (10 * d1 + d2)).
Proof.
  intros H1 H2. unfold atoi, strtol10. cbn [skip_space].
  destruct (digit_char_plain d1 H1) as (-> & -> & ->).
  cbn [digits_from]. rewrite (digit_char_value d1 H1), (digit_char_value d2 H2).
  change (digit_of ":") with (@None Z). cbv iota.
  replace (10 * (10 * 0 + Z.of_nat d1) + Z.of_nat d2)%Z with (Z.of_nat (10 * d1 + d2)) by lia.
  replace ((int_min <=? Z.of_nat (10 * d1 + d2)) && (Z.of_nat (10 * d1 + d2) <=? int_max))%Z
    with true; [reflexivity|].
  symmetry. apply andb_true_intro. unfold int_min, int_max.
  split; apply Z.leb_le; lia.
Qed.

(** X10. The stride is read from the fourth character whatever the length of
    the start.  For a start of two digits, ["%d1d2:m"], the fourth character
    is the colon and the stride reads as [0], whatever [m] says: if the start
    is a row the marking loop never ends, otherwise nothing is marked. *)
Theorem two_digit_start_loses_stride (d1 d2 rows : nat) (rest : String.string) :
  d1 < 10 -> d2 < 10 ->
  (10 * d1 + d2 < rows ->
   forall fuel,
     pattern_mask fuel rows
       (String.String "%" (String.String (digit_char d1) (String.String (digit_char d2)
          (String.String ":" rest)))) = Still_running) /\
  (rows <= 10 * d1 + d2 ->
   forall fuel,
     pattern_mask fuel rows
       (String.String "%" (String.String (digit_char d1) (String.String (digit_char d2)
          (String.String ":" rest)))) = Mask (repeat Byte.x00 rows)).
Proof.
  intros H1 H2.
  assert (S3 : atoi (String.String ":" rest) = Some 0%Z) by reflexivity.
  split; intros Hr fuel; unfold pattern_mask; cbn [substr];
    rewrite (atoi_two_digits d1 d2 rest H1 H2), S3;
    unfold to_size_t; rewrite Z.mod_0_l by (unfold size_max; lia);
    rewrite Z.mod_small by (unfold size_max; lia).
  - rewrite mark_zero_stride; [reflexivity|lia|unfold size_max; lia].
  - rewrite mark_done by lia. reflexivity.
Qed.

Lemma atoi_one_char (c : Ascii.ascii) :
  exists v, atoi (String.String c String.EmptyString) = Some v.
Proof.
  destruct c as [[] [] [] [] [] [] [] []]; eexists; reflexivity.
Qed.

(** X11. A pattern argument of fewer than three characters, such as ["%"] or
    ["%5"], makes [substr(3)] throw [std::out_of_range]: no mask is built. *)
Theorem short_pattern_throws (fuel rows : nat) (pm_file : String.string) :
  is_pattern pm_file = true -> String.length pm_file < 3 ->
  pattern_mask fuel rows pm_file = Throws_out_of_range.
Proof.
  intros _ L. destruct pm_file as [|c0 [|c1 [|c2 s]]]; cbn in L.
  - reflexivity.
  - reflexivity.
  - unfold pattern_mask. cbn [substr].
    destruct (atoi_one_char c1) as [v ->]. reflexivity.
  - lia.
Qed.

(** X12. A negative start marks nothing: converted to [size_t] it lies beyond
    every row count up to [2^63], the loop body is never entered and the mask
    is all zeros, whatever the stride. *)
Theorem negative_start_marks_nothing (fuel rows : nat) (pm_file s1 s3 : String.string)
    (a b : Z) :
  substr 1 pm_file = Some s1 -> atoi s1 = Some a ->
  substr 3 pm_file = Some s3 -> atoi s3 = Some b ->
  (a < 0)%Z -> (Z.of_nat rows <= 2 ^ 63)%Z ->
  pattern_mask fuel rows pm_file = Mask (repeat Byte.x00 rows).
Proof.
  intros H1 Ha H3 Hb Pa Hr.
  pose proof (atoi_range _ _ Ha) as Ra. unfold int_min, int_max in Ra.
  unfold pattern_mask. rewrite H1, Ha, H3, Hb.
  rewrite mark_done; [reflexivity|].
  unfold to_size_t, size_max.
  replace (a mod 2 ^ 64)%Z with (a + 2 ^ 64)%Z; [lia|].
  apply Z.mod_unique with (q := (-1)%Z); lia.
Qed.

(** X13. Whenever the pattern branch builds a mask, the mask has exactly
    [rows] entries and each entry is [0] or [1]: the loop writes within the
    vector only. *)
Theorem pattern_mask_shape (fuel rows : nat) (pm_file : String.string)
    (pm : list Byte.byte) :
  pattern_mask fuel rows pm_file = Mask pm ->
  length pm = rows /\ Forall is_bit pm.
Proof.
  unfold pattern_mask.
  destruct (substr 1 pm_file); [|discriminate].
  destruct (atoi _); [|discriminate].
  destruct (substr 3 pm_file); [|discriminate].
  destruct (atoi _); [|discriminate].
  destruct (mark _ _ _ _ _) as [pm'|] eqn:E; [|discriminate].
  intros [= <-]. apply mark_keeps_shape in E as [L F].
  rewrite repeat_length in L. split; [exact L|].
  apply F. apply Forall_forall. intros c Hc. apply repeat_spec in Hc. now left.
Qed.

(** ** A negative stride *)

Lemma marked_above_start (rows : nat) (a c : Z) :
  repeat Byte.x00 rows = marked_above rows a c a.
Proof.
  unfold marked_above. rewrite (repeat_map_seq Byte.x00 rows 0).
  apply map_ext. intro j.
  destruct (Z.ltb_spec a (Z.of_nat j)) as [L|L]; [|reflexivity].
  replace (Z.of_nat j <=? a)%Z with false by (symmetry; apply Z.leb_gt; lia).
  reflexivity.
Qed.

Lemma marked_above_end (rows : nat) (a c i : Z) :
  (i < 0)%Z -> marked_above rows a c i = back_mask rows a c.
Proof.
  intro H. unfold marked_above, back_mask. apply map_ext. intro j.
  replace (i <? Z.of_nat j)%Z with true by (symmetry; apply Z.ltb_lt; lia).
  reflexivity.
Qed.

Lemma marked_above_step (rows : nat) (a c i : Z) :
  (0 < c)%Z -> (0 <= i <= a)%Z -> ((a - i) mod c = 0)%Z ->
  store (Z.to_nat i) Byte.x01 (marked_above rows a c i) = marked_above rows a c (i - c).
Proof.
  intros Hc Hi Hm. unfold marked_above. rewrite store_map_seq.
  apply map_ext_in. intros j Hj. cbn [Nat.add].
  destruct (Nat.eqb_spec j (Z.to_nat i)) as [->|N].
  - rewrite Z2Nat.id by lia.
    replace (i - c <? i)%Z with true by (symmetry; apply Z.ltb_lt; lia).
    replace (i <=? a)%Z with true by (symmetry; apply Z.leb_le; lia).
    rewrite Hm. reflexivity.
  - assert (Nj : Z.of_nat j <> i) by (intro Q; apply N; rewrite <- Q; now rewrite Nat2Z.id).
    destruct (Z.ltb_spec i (Z.of_nat j)) as [L|L].
    + replace (i - c <? Z.of_nat j)%Z with true by (symmetry; apply Z.ltb_lt; lia).
      reflexivity.
    + cbn [andb].
      destruct (Z.ltb_spec (i - c) (Z.of_nat j)) as [L2|L2]; [|reflexivity].
      destruct (Z.leb_spec (Z.of_nat j) a) as [L3|L3]; [|reflexivity].
      cbn [andb].
      destruct (Z.eqb_spec ((a - Z.of_nat j) mod c) 0) as [M|M]; [|reflexivity].
      exfalso.
      apply Z.mod_divide in M; [|lia]. apply Z.mod_divide in Hm; [|lia].
      destruct M as [c1 M], Hm as [c2 Hm].
      assert (B : (0 < (c1 - c2) * c < c)%Z) by lia.
      destruct (Z_le_gt_dec (c1 - c2) 0) as [K|K]; nia.
Qed.

Lemma mark_backward (rows : nat) (a c : Z) :
  (0 < c <= 2 ^ 31)%Z -> (a < Z.of_nat rows)%Z -> (Z.of_nat rows <= 2 ^ 63)%Z ->
  forall fuel i,
    (0 <= i <= a)%Z -> ((a - i) mod c = 0)%Z -> (i < Z.of_nat fuel)%Z ->
    mark fuel rows (size_max - c) i (marked_above rows a c i) = Some (back_mask rows a c).
Proof.
  intros Hc Ha Hr. induction fuel as [|fuel IH]; intros i Hi Hm Hf; [lia|].
  cbn [mark].
  replace (i <? Z.of_nat rows)%Z with true by (symmetry; apply Z.ltb_lt; lia).
  rewrite marked_above_step by (try assumption; lia).
  destruct (Z_le_gt_dec c i) as [G|G].
  - replace ((i + (size_max - c)) mod size_max)%Z with (i - c)%Z.
    + apply IH; [lia| |lia].
      replace (a - (i - c))%Z with (a - i + 1 * c)%Z by lia.
      rewrite Z.mod_add by lia. exact Hm.
    + apply Z.mod_unique with (q := 1%Z); unfold size_max; lia.
  - rewrite mark_done.
    + now rewrite marked_above_end by lia.
    + rewrite Z.mod_small by (unfold size_max; lia). unfold size_max. lia.
Qed.

(** X14. A negative stride walks down from the start: for a start [a] that
    is a row and a stride [b < 0], on at most [2^63] rows, the loop ends
    within [a + 1] trips when the counter wraps round below zero, and entry
    [j] of the mask is [1] exactly when [j = a + i b] for some [i >= 0]. *)
Theorem negative_stride_marks_downwards (fuel rows : nat)
    (pm_file s1 s3 : String.string) (a b : Z) :
  substr 1 pm_file = Some s1 -> atoi s1 = Some a ->
  substr 3 pm_file = Some s3 -> atoi s3 = Some b ->
  (0 <= a < Z.of_nat rows)%Z -> (b < 0)%Z -> (Z.of_nat rows <= 2 ^ 63)%Z ->
  (a < Z.of_nat fuel)%Z ->
  pattern_mask fuel rows pm_file = Mask (back_mask rows a (- b)) /\
  (forall j, j < rows ->
     (nth j (back_mask rows a (- b)) Byte.x00 = Byte.x01 <->
      exists i : Z, (0 <= i)%Z /\ Z.of_nat j = (a + i * b)%Z)).
Proof.
  intros H1 Ha H3 Hb Pa Pb Hr Hf.
  pose proof (atoi_range _ _ Hb) as Rb. unfold int_min, int_max in Rb.
  split.
  - unfold pattern_mask. rewrite H1, Ha, H3, Hb.
    unfold to_size_t.
    rewrite (Z.mod_small a) by (unfold size_max; lia).
    replace (b mod size_max)%Z with (size_max - - b)%Z
      by (apply Z.mod_unique with (q := (-1)%Z); unfold size_max; lia).
    rewrite (marked_above_start rows a (- b)).
    rewrite (mark_backward rows a (- b)); try lia.
    + reflexivity.
    + now rewrite Z.sub_diag, Z.mod_0_l by lia.
  - intros j Hj. unfold back_mask.
    set (g := fun j0 : nat =>
                if ((Z.of_nat j0 <=? a) && ((a - Z.of_nat j0) mod - b =? 0))%Z
                then Byte.x01 else Byte.x00).
    rewrite (nth_indep _ Byte.x00 (g 0)) by (now rewrite length_map, length_seq).
    rewrite map_nth, seq_nth by exact Hj. unfold g. cbn [Nat.add].
    destruct (Z.leb_spec (Z.of_nat j) a) as [L|L]; cbn [andb].
    + destruct (Z.eqb_spec ((a - Z.of_nat j) mod - b) 0) as [M|M].
      * split; [intros _|reflexivity].
        apply Z.mod_divide in M; [|lia]. destruct M as [c M].
        exists c. split; [nia|lia].
      * split; [discriminate|].
        intros [i [Hi E]]. exfalso. apply M.
        replace (a - Z.of_nat j)%Z with (i * - b)%Z by lia. apply Z.mod_mul. lia.
    + split; [discriminate|].
      intros [i [Hi E]]. nia.
Qed.

End DriverFacts.

(** ** Instances of the further properties *)

Module ReuseWitnesses.

Import DoubleSystems RealSystems.

Lemma eye3_square : @square float double_dense 3%nat eye3.
Proof. intros v _. reflexivity. Qed.

Lemma default_engine_sized (n : nat) : @cg_sized float (default_engine n).
Proof. constructor; cbn; apply repeat_length. Qed.

Lemma sizes_are_kept_witness :
  @cg_sized float (default_engine 3%nat) /\
  length (out_x (solve4 (default_engine 3%nat) eye3 identity_precond
                   [1; 2; 3]%float [0; 0; 0]%float)) = 3%nat.
Proof.
  split; [apply default_engine_sized|].
  exact (proj2 (proj2 (sizes_are_kept (default_engine 3%nat) eye3 identity_precond
                         [1; 2; 3]%float [0; 0; 0]%float
                         (default_engine_sized 3%nat) eye3_square
                         (fun v L => L) eq_refl eq_refl))).
Defined.

Lemma engine_state_is_dead_witness :
  @exact_arithmetic R real_scalar /\
  out_x (@solve4 R real_scalar real_dense
           {| cg_prm := cg_prm engine1; cg_n := cg_n engine1;
              cg_r := [5%R]; cg_s := [6%R]; cg_p := [7%R]; cg_q := [8%R] |}
           unit1 identity_precond rhs1 x1) =
  out_x (@solve4 R real_scalar real_dense engine1 unit1 identity_precond rhs1 x1).
Proof.
  split; [exact RealFacts.real_exact|].
  exact (proj2 (@engine_state_is_dead_on_entry R real_scalar real_dense
                  engine1 unit1 identity_precond rhs1 x1 [5%R] [6%R] [7%R] [8%R]
                  RealFacts.real_exact RealFacts.engine1_sized RealFacts.unit1_square
                  (RealFacts.identity_preserves_size (cg_n engine1))
                  eq_refl eq_refl eq_refl eq_refl eq_refl eq_refl)).
Defined.

Lemma returned_residual_is_true_witness :
  @seqb R real_scalar (@norm R real_scalar rhs1) (@szero R real_scalar) = false /\
  snd (out_result (@solve4 R real_scalar real_dense engine1 unit1 identity_precond rhs1 x1)) =
  @sdiv R real_scalar
    (@norm R real_scalar
       (@residual R real_scalar real_dense rhs1 unit1
          (out_x (@solve4 R real_scalar real_dense engine1 unit1 identity_precond rhs1 x1))))
    (@norm R real_scalar rhs1).
Proof.
  split; [exact RealFacts.rhs1_nonzero|].
  exact (@returned_residual_is_true R real_scalar real_dense
           engine1 unit1 identity_precond rhs1 x1
           RealFacts.real_exact RealFacts.real_sub_add_law
           RealFacts.engine1_sized RealFacts.unit1_square
           (RealFacts.real_dense_linear (cg_n engine1) unit1)
           (RealFacts.identity_preserves_size (cg_n engine1))
           eq_refl eq_refl RealFacts.rhs1_nonzero).
Defined.

Lemma real_tolerance_order (a : R) :
  @sgtb R real_scalar a 1%R = true -> @sgtb R real_scalar a 0%R = true.
Proof.
  cbn. destruct (Rgt_dec a 1), (Rgt_dec a 0); try reflexivity; try discriminate.
  intros _. lra.
Qed.

Lemma looser_tolerance_witness :
  (forall a : R, @sgtb R real_scalar a 1%R = true -> @sgtb R real_scalar a 0%R = true) /\
  fst (out_result (@solve4 R real_scalar real_dense (@with_tol R 1%R engine1)
                     unit1 identity_precond rhs1 x1)) <=
  fst (out_result (@solve4 R real_scalar real_dense (@with_tol R 0%R engine1)
                     unit1 identity_precond rhs1 x1)).
Proof.
  split; [exact real_tolerance_order|].
  exact (@looser_tolerance_fewer_iterations R real_scalar real_dense
           engine1 unit1 identity_precond rhs1 x1 0%R 1%R real_tolerance_order).
Defined.

End ReuseWitnesses.

Module DriverWitnesses.

Import Driver.
Import String.StringSyntax Ascii.AsciiSyntax.
Local Open Scope string_scope.

Lemma atoi_reads_decimal_witness :
  no_leading_digit ":3" /\ (Z.of_nat 42 <= int_max)%Z /\
  atoi "42:3" = Some 42%Z.
Proof.
  assert (H : no_leading_digit ":3") by reflexivity.
  assert (B : (Z.of_nat 42 <= int_max)%Z) by (unfold int_max; lia).
  split; [exact H|]. split; [exact B|].
  exact (proj1 (DriverFacts.atoi_reads_decimal 42 ":3" H B)).
Defined.

Lemma pattern_marks_every_stride_witness :
  substr 1 "%2:3" = Some "2:3" /\ atoi "2:3" = Some 2%Z /\
  substr 3 "%2:3" = Some "3" /\ atoi "3" = Some 3%Z /\
  pattern_mask 10 10 "%2:3" = Mask (stride_mask 10 2 3).
Proof.
  repeat (split; [reflexivity|]).
  refine (proj1 (DriverFacts.pattern_marks_every_stride 10 10 "%2:3" "2:3" "3" 2 3
                   eq_refl eq_refl eq_refl eq_refl _ _ _ _)); lia.
Defined.

Lemma zero_stride_never_ends_witness :
  atoi "10:4" = Some 10%Z /\ atoi ":4" = Some 0%Z /\
  forall fuel, pattern_mask fuel 12 "%10:4" = Still_running.
Proof.
  repeat (split; [reflexivity|]).
  refine (DriverFacts.zero_stride_never_ends 12 "%10:4" "10:4" ":4" 10
            eq_refl eq_refl eq_refl eq_refl _). lia.
Defined.

Lemma two_digit_start_witness :
  1 < 10 /\ 0 < 10 /\ 10 * 1 + 0 < 12 /\
  forall fuel, pattern_mask fuel 12 "%10:4" = Still_running.
Proof.
  assert (A : 1 < 10) by lia. assert (B : 0 < 10) by lia.
  assert (C : 10 * 1 + 0 < 12) by lia.
  split; [exact A|]. split; [exact B|]. split; [exact C|].
  exact (proj1 (DriverFacts.two_digit_start_loses_stride 1 0 12 "4" A B) C).
Defined.

Lemma short_pattern_throws_witness :
  is_pattern "%5" = true /\ String.length "%5" < 3 /\
  pattern_mask 10 10 "%5" = Throws_out_of_range.
Proof.
  assert (L : String.length "%5" < 3) by (cbn; lia).
  split; [reflexivity|]. split; [exact L|].
  exact (DriverFacts.short_pattern_throws 10 10 "%5" eq_refl L).
Defined.

Lemma negative_start_witness :
  atoi "-1:2" = Some (-1)%Z /\ atoi ":2" = Some 0%Z /\
  pattern_mask 10 10 "%-1:2" = Mask (repeat Byte.x00 10).
Proof.
  repeat (split; [reflexivity|]).
  refine (DriverFacts.negative_start_marks_nothing 10 10 "%-1:2" "-1:2" ":2" (-1) 0
            eq_refl eq_refl eq_refl eq_refl _ _); lia.
Defined.

Lemma pattern_mask_shape_witness :
  pattern_mask 10 10 "%2:3" = Mask (stride_mask 10 2 3) /\
  length (stride_mask 10 2 3) = 10.
Proof.
  split; [reflexivity|].
  exact (proj1 (DriverFacts.pattern_mask_shape 10 10 "%2:3" (stride_mask 10 2 3) eq_refl)).
Defined.

Lemma negative_stride_witness :
  atoi "7:-2" = Some 7%Z /\ atoi "-2" = Some (-2)%Z /\
  pattern_mask 10 10 "%7:-2" = Mask (back_mask 10 7 2).
Proof.
  repeat (split; [reflexivity|]).
  refine (proj1 (DriverFacts.negative_stride_marks_downwards 10 10 "%7:-2" "7:-2" "-2" 7 (-2)
                   eq_refl eq_refl eq_refl eq_refl _ _ _ _)); lia.
Defined.

End DriverWitnesses.

(** * The loop body as the backend computes it, and the caller's objects *)

Section Calls.

Context {V : Type} {SV : Scalar V} {BV : Backend V}.

Implicit Types (f : @frame V BV) (e : @cg V) (A : matrix) (P : @precond V)
  (rhs x : @vector V).

Lemma map2_map_both {X Y X' Y' Z : Type} (g : X' -> Y' -> Z) (h : X -> X') (k : Y -> Y')
    (xs : list X) : forall ys,
  map2 g (map h xs) (map k ys) = map2 (fun a b => g (h a) (k b)) xs ys.
Proof.
  induction xs as [|a xs IH]; intros [|b ys]; cbn; try reflexivity.
  now rewrite IH.
Qed.

Lemma axpby_as_sum (a b : V) (u v : @vector V) :
  axpby a u b v = vadd (vscale a u) (vscale b v).
Proof.
  unfold axpby, vadd, vscale. now rewrite map2_map_both.
Qed.

Lemma spmv_as_sum (a b : V) A (u v : @vector V) :
  spmv a A u b v = vadd (vscale a (mv A u)) (vscale b v).
Proof.
  unfold spmv, vadd, vscale. now rewrite map2_map_both.
Qed.

(** One trip round the loop is one [cg_step], for every value type and every
    memory. *)
Lemma next_is_cg_step f : next f = cg_step f.
Proof.
  destruct f as [A0 P0 rhs0 x0 prm0 n0 r0 s0 p0 q0 rho1 rho2 nrm it].
  unfold next, incr, body, st_update, alpha_of, st_spmv, st_dir, st_rho, st_precond,
    cg_step, inner_product, copy.
  destruct it as [|it]; cbn -[axpby spmv vadd vscale dot];
    rewrite ?axpby_as_sum, ?spmv_as_sum; reflexivity.
Qed.

Lemma trips_are_cg_steps (j : nat) : forall f, trips j f = cg_steps j f.
Proof.
  induction j as [|j IH]; intro f; cbn [trips cg_steps]; [reflexivity|].
  now rewrite next_is_cg_step, IH.
Qed.


(** ** The caller's objects *)


End Calls.

Module CallFacts.

Import DoubleSystems.
Open Scope float_scope.




End CallFacts.
